(** * physrisk/data/inventory.py: hazard inventory, period resolution and
      map-id hashing

    A shallow embedding of [src/physrisk/data/inventory.py]:
    - [alphanumeric] and [base36encode], the hash behind every map id;
    - [EmbeddedInventory.to_resources], which fills in the periods of every
      scenario and checks them against the periods written in the catalog;
    - [Inventory.__init__], the two look-up tables.

    Python values are modelled as follows.
    - [str] is a list of code points ([Z]); [bytes] is a list of [Z] in
      [0, 256).  ASCII literals are written [u "..."].
    - [int] is [Z].
    - A call either returns, raises, or leaves the model ([result]). *)

From Stdlib Require Import ZArith String Ascii List Lia DecimalString.
From Stdlib Require Import Floats.PrimFloat.
From stdpp Require Import gmap list.

Local Open Scope Z_scope.

(** ** Python values and outcomes *)

Abbreviation str := (list Z).
Abbreviation bytes := (list Z).

(** The code points of an ASCII literal. *)
Definition u (s : string) : str :=
  (fun a => Z.of_N (N_of_ascii a)) <$> list_ascii_of_string s.

(** The objects [base36encode] may be handed: it tests [isinstance(number, int)]. *)
Inductive pyobj :=
| PyInt (n : Z)
| PyStr (s : str)
| PyBytes (b : bytes)
| PyNone.

Inductive exn :=
| TypeError (msg : str)
| ValueError
| KeyError (key : str)
| IndexError
| ZeroDivisionError
| UnicodeEncodeError
| Exception (msg : str).

(** [Unmodelled]: the model does not say what Python does, because a loop ran
    out of fuel or [str.format] met a feature outside the modelled fragment. *)
Inductive result (A : Type) :=
| Ok (a : A)
| Raise (e : exn)
| Unmodelled.
Arguments Ok {A} a.
Arguments Raise {A} e.
Arguments Unmodelled {A}.

Definition bind {A B} (r : result A) (k : A -> result B) : result B :=
  match r with
  | Ok a => k a
  | Raise e => Raise e
  | Unmodelled => Unmodelled
  end.

Notation "'let!' x ':=' r 'in' k" := (bind r (fun x => k))
  (at level 10, x name, r at level 100, k at level 200).

(** [len(s)] *)
Definition len {A} (s : list A) : Z := Z.of_nat (length s).

(** [s[i]] on a sequence: negative indices count from the end. *)
Definition getitem {A} (s : list A) (i : Z) : result A :=
  let j := if i <? 0 then len s + i else i in
  if j <? 0 then Raise IndexError
  else match s !! Z.to_nat j with
       | Some x => Ok x
       | None => Raise IndexError
       end.

(** [s[0:n]] *)
Definition slice0 {A} (n : nat) (s : list A) : list A := take n s.

(** ** [str.encode("utf-8")]

    The default error handler is strict: a surrogate code point
    (U+D800..U+DFFF) raises [UnicodeEncodeError].  Values outside the code
    space are in no Python [str]; the model rejects them the same way. *)
Definition encode_char (c : Z) : result bytes :=
  if c <? 0 then Raise UnicodeEncodeError
  else if c <? 0x80 then Ok [c]
  else if c <? 0x800 then
    Ok [Z.lor 0xC0 (Z.shiftr c 6); Z.lor 0x80 (Z.land c 0x3F)]
  else if c <? 0x10000 then
    if (0xD800 <=? c) && (c <=? 0xDFFF) then Raise UnicodeEncodeError
    else Ok [Z.lor 0xE0 (Z.shiftr c 12);
             Z.lor 0x80 (Z.land (Z.shiftr c 6) 0x3F);
             Z.lor 0x80 (Z.land c 0x3F)]
  else if c <=? 0x10FFFF then
    Ok [Z.lor 0xF0 (Z.shiftr c 18);
        Z.lor 0x80 (Z.land (Z.shiftr c 12) 0x3F);
        Z.lor 0x80 (Z.land (Z.shiftr c 6) 0x3F);
        Z.lor 0x80 (Z.land c 0x3F)]
  else Raise UnicodeEncodeError.

Fixpoint encode_utf8 (text : str) : result bytes :=
  match text with
  | [] => Ok []
  | c :: rest =>
      let! b := encode_char c in
      let! bs := encode_utf8 rest in
      Ok (b ++ bs)
  end.

(** A code point that UTF-8 encodes: in the code space, not a surrogate. *)
Definition scalar_value (c : Z) : Prop :=
  0 <= c < 0xD800 \/ 0xDFFF < c <= 0x10FFFF.

(** ** [hashlib.sha1(data).digest()] (FIPS 180-4, section 6.1) *)
Module hashlib.

Definition add32 (a b : Z) : Z := (a + b) mod 2 ^ 32.

Definition rotl (n x : Z) : Z :=
  Z.lor (Z.shiftl x n mod 2 ^ 32) (Z.shiftr x (32 - n)).

Definition not32 (x : Z) : Z := Z.lxor x 0xFFFFFFFF.

Definition f (t : nat) (b c d : Z) : Z :=
  if (t <? 20)%nat then Z.lor (Z.land b c) (Z.land (not32 b) d)
  else if (t <? 40)%nat then Z.lxor (Z.lxor b c) d
  else if (t <? 60)%nat then
    Z.lor (Z.lor (Z.land b c) (Z.land b d)) (Z.land c d)
  else Z.lxor (Z.lxor b c) d.

Definition K (t : nat) : Z :=
  if (t <? 20)%nat then 0x5A827999
  else if (t <? 40)%nat then 0x6ED9EBA1
  else if (t <? 60)%nat then 0x8F1BBCDC
  else 0xCA62C1D6.

(** [n] bytes of [x], most significant first. *)
Fixpoint be_bytes (n : nat) (x : Z) : bytes :=
  match n with
  | O => []
  | S n' => (Z.shiftr x (8 * Z.of_nat n')) mod 256 :: be_bytes n' x
  end.

Definition be_word (bs : bytes) : Z :=
  fold_left (fun acc b => acc * 256 + b) bs 0.

(** Padding: a 1 bit, zeros up to 56 mod 64, the bit length on 64 bits. *)
Definition pad (msg : bytes) : bytes :=
  let l := len msg in
  msg ++ [0x80] ++ replicate (Z.to_nat ((55 - l) mod 64)) 0
      ++ be_bytes 8 ((8 * l) mod 2 ^ 64).

Fixpoint chunks {A} (size count : nat) (l : list A) : list (list A) :=
  match count with
  | O => []
  | S count' => take size l :: chunks size count' (drop size l)
  end.

(** The message schedule: 16 words of the block, extended to 80. *)
Fixpoint extend (n : nat) (w : list Z) : list Z :=
  match n with
  | O => w
  | S n' =>
      let t := length w in
      let x := Z.lxor (Z.lxor (Z.lxor (nth (t - 3) w 0) (nth (t - 8) w 0))
                              (nth (t - 14) w 0)) (nth (t - 16) w 0) in
      extend n' (w ++ [rotl 1 x])
  end.

Definition schedule (block : bytes) : list Z :=
  extend 64 (be_word <$> chunks 4 16 block).

Record state := State { ha : Z; hb : Z; hc : Z; hd : Z; he : Z }.

Definition round (w : list Z) (s : state) (t : nat) : state :=
  let temp :=
    add32 (add32 (add32 (add32 (rotl 5 (ha s)) (f t (hb s) (hc s) (hd s)))
                        (he s)) (K t)) (nth t w 0) in
  State temp (ha s) (rotl 30 (hb s)) (hc s) (hd s).

Definition compress (h : state) (block : bytes) : state :=
  let s := fold_left (round (schedule block)) (seq 0 80) h in
  State (add32 (ha h) (ha s)) (add32 (hb h) (hb s)) (add32 (hc h) (hc s))
        (add32 (hd h) (hd s)) (add32 (he h) (he s)).

Definition H0 : state :=
  State 0x67452301 0xEFCDAB89 0x98BADCFE 0x10325476 0xC3D2E1F0.

Definition sha1_digest (data : bytes) : bytes :=
  let p := pad data in
  let h := fold_left compress (chunks 64 (length p / 64)%nat p) H0 in
  be_bytes 4 (ha h) ++ be_bytes 4 (hb h) ++ be_bytes 4 (hc h)
    ++ be_bytes 4 (hd h) ++ be_bytes 4 (he h).

End hashlib.

(** [int.from_bytes(b, "big")] *)
Definition int_from_bytes_big (b : bytes) : Z :=
  fold_left (fun acc x => acc * 256 + x) b 0.

(** ** [base36encode] and [alphanumeric] *)

Definition default_alphabet : str := u "0123456789abcdefghijklmnopqrstuvwxyz".

(** The loop
[[
    while number != 0:
        number, i = divmod(number, len(alphabet))
        base36 = alphabet[i] + base36
]]
    with a bound on the number of iterations. *)
Fixpoint base36encode_while (fuel : nat) (alphabet : str) (number : Z)
    (base36 : str) : result str :=
  if number =? 0 then Ok base36
  else match fuel with
       | O => Unmodelled
       | S fuel' =>
           if len alphabet =? 0 then Raise ZeroDivisionError
           else
             let i := number mod len alphabet in
             let number := number / len alphabet in
             let! c := getitem alphabet i in
             base36encode_while fuel' alphabet number (c :: base36)
       end.

(** Iterations granted to the loop: with two symbols or more every iteration
    at least halves [number], so its bit length is enough. *)
Definition base36encode_fuel (number : Z) : nat :=
  S (Z.to_nat (Z.log2 number)).

Definition base36encode (number : pyobj) (alphabet : str) : result str :=
  match number with
  | PyInt number =>
      let base36 := [] in
      if number <? 0 then Raise (TypeError (u "number must be positive"))
      else if (0 <=? number) && (number <? len alphabet) then
        let! c := getitem alphabet number in Ok [c]
      else base36encode_while (base36encode_fuel number) alphabet number base36
  | _ => Raise (TypeError (u "number must be an integer"))
  end.

Definition alphanumeric (text : str) : result str :=
  let! data := encode_utf8 text in
  let hash_int := int_from_bytes_big (hashlib.sha1_digest data) in
  base36encode (PyInt hash_int) default_alphabet.

(** The map id of a rendered array name: [alphanumeric(array_name)[0:6]]. *)
Definition map_id_of (array_name : str) : result str :=
  let! h := alphanumeric array_name in
  Ok (slice0 6 h).

(** ** [str.format] with keyword arguments

    The fragment modelled: literal text, the escapes [{{] and [}}], and fields
    [{name}] and [{name:spec}] whose name is a keyword.  For an [int] the
    spec is an optional [0] flag, an optional width and an optional [d]; for
    a [str] it is empty or [s].  Conversions ([!r]), attribute and index
    access, positional fields, nested fields and the rest of the format-spec
    language are [Unmodelled]. *)

Definition str_of_int (n : Z) : str :=
  u (DecimalString.NilZero.string_of_int (Z.to_int n)).

Definition is_digit (c : Z) : bool := (48 <=? c) && (c <=? 57).

(** The leading decimal digits of a spec, as a number, and what follows. *)
Fixpoint read_width (acc : Z) (spec : str) : Z * str :=
  match spec with
  | [] => (acc, [])
  | d :: rest =>
      if is_digit d then read_width (acc * 10 + (d - 48)) rest
      else (acc, spec)
  end.

(** [format(n, spec)] for an [int]: sign-aware zero padding with the [0]
    flag, right alignment otherwise. *)
Definition format_int (spec : str) (n : Z) : result str :=
  match spec with
  | [] => Ok (str_of_int n)
  | c :: rest =>
      let zero := c =? 48 in
      let '(width, type) := read_width 0 (if zero then rest else spec) in
      if bool_decide (type = []) || bool_decide (type = u "d") then
        let sign := if n <? 0 then u "-" else [] in
        let digits := str_of_int (Z.abs n) in
        let padding := Z.to_nat (width - len sign - len digits) in
        if zero then Ok (sign ++ replicate padding 48 ++ digits)
        else Ok (replicate padding 32 ++ sign ++ digits)
      else Unmodelled
  end.

(** [format(s, spec)] for a [str]. *)
Definition format_str (spec : str) (s : str) : result str :=
  if bool_decide (spec = []) || bool_decide (spec = u "s") then Ok s
  else Unmodelled.

Fixpoint kwargs_get (kwargs : list (str * pyobj)) (name : str) : option pyobj :=
  match kwargs with
  | [] => None
  | (k, v) :: rest => if bool_decide (k = name) then Some v else kwargs_get rest name
  end.

Definition format_field (kwargs : list (str * pyobj)) (name spec : str)
    : result str :=
  match name with
  | [] => Raise IndexError
  | _ =>
      if forallb is_digit name then Unmodelled
      else match kwargs_get kwargs name with
           | None => Raise (KeyError name)
           | Some (PyInt n) => format_int spec n
           | Some (PyStr s) => format_str spec s
           | Some _ => Unmodelled
           end
  end.

Inductive format_mode :=
| InText
| InName (name : str)
| InSpec (name spec : str).

Definition LBRACE : Z := 123.
Definition RBRACE : Z := 125.

(** One pass over the template, left to right: a field is rendered as soon
    as its closing brace is read, so the first error in reading order is the
    one raised. *)
Fixpoint str_format_from (mode : format_mode) (template : str)
    (kwargs : list (str * pyobj)) : result str :=
  match mode, template with
  | InText, [] => Ok []
  | InText, c :: rest =>
      if c =? LBRACE then
        match rest with
        | [] => Raise ValueError
        | c' :: rest' =>
            if c' =? LBRACE then
              let! out := str_format_from InText rest' kwargs in Ok (LBRACE :: out)
            else str_format_from (InName []) rest kwargs
        end
      else if c =? RBRACE then
        match rest with
        | [] => Raise ValueError
        | c' :: rest' =>
            if c' =? RBRACE then
              let! out := str_format_from InText rest' kwargs in Ok (RBRACE :: out)
            else Raise ValueError
        end
      else let! out := str_format_from InText rest kwargs in Ok (c :: out)
  | InName _, [] => Raise ValueError
  | InName name, c :: rest =>
      if c =? RBRACE then
        let! field := format_field kwargs name [] in
        let! out := str_format_from InText rest kwargs in
        Ok (field ++ out)
      else if c =? 58 (* : *) then str_format_from (InSpec name []) rest kwargs
      else if (c =? 33 (* ! *)) || (c =? 46 (* . *)) || (c =? 91 (* [ *))
              || (c =? LBRACE) then Unmodelled
      else str_format_from (InName (name ++ [c])) rest kwargs
  | InSpec _ _, [] => Raise ValueError
  | InSpec name spec, c :: rest =>
      if c =? RBRACE then
        let! field := format_field kwargs name spec in
        let! out := str_format_from InText rest kwargs in
        Ok (field ++ out)
      else if c =? LBRACE then Unmodelled
      else str_format_from (InSpec name (spec ++ [c])) rest kwargs
  end.

Definition str_format (template : str) (kwargs : list (str * pyobj))
    : result str :=
  str_format_from InText template kwargs.

(** ** The data model

    The pydantic classes of [physrisk/api/v1/hazard_data.py] that
    [inventory.py] imports and builds from its dictionaries. *)

(** Modelled from the spec: the colormap of a map specification (name,
    no-data index, min/max index and value, units); its class is declared in
    [physrisk/api/v1/hazard_data.py]. *)
Module Colormap.
Record t := Build {
  name : str;
  nodata_index : Z;
  min_index : Z;
  min_value : float;
  max_index : Z;
  max_value : float;
  units : str
}.
End Colormap.

(** Modelled from the spec: the map specification (colormap, its own
    array-name template, optional tile-source tag); its class [MapInfo] is
    declared in [physrisk/api/v1/hazard_data.py].  The template is optional,
    and [to_resources] tests it for truth. *)
Module MapInfo.
Record t := Build {
  colormap : option Colormap.t;
  array_name : option str;
  source : option str
}.
End MapInfo.

(** Modelled from the spec: a period is a (year, derived key) pair; its class
    [Period] is declared in [physrisk/api/v1/hazard_data.py]. *)
Module Period.
Record t := Build {
  year : Z;
  map_id : str
}.
End Period.

(** Modelled from the spec: a scenario has an id, an ordered list of years
    and, optionally, a list of pre-recorded periods; its class [Scenario] is
    declared in [physrisk/api/v1/hazard_data.py]. *)
Module Scenario.
Record t := Build {
  id : str;
  years : list Z;
  periods : option (list Period.t)
}.
End Scenario.

(** Modelled from the spec: a resource has a hazard type, a path, a model id,
    optional parameters, a display name, an array name, a description, an
    optional map specification, scenarios and units; its class
    [HazardResource] is declared in [physrisk/api/v1/hazard_data.py]. *)
Module HazardResource.
Record t := Build {
  type : str;
  path : str;
  id : str;
  params : option (list (str * list str));
  display_name : str;
  description : str;
  array_name : str;
  map : option MapInfo.t;
  units : str;
  scenarios : list Scenario.t
}.

(** Modelled from the spec: the composite key of a resource is the
    concatenation of its path and its model id; the method
    [HazardResource.key] is declared in [physrisk/api/v1/hazard_data.py]. *)
Definition key (r : t) : str := path r ++ id r.
End HazardResource.

(** ** [EmbeddedInventory.to_resources] *)

(** Truth value of an optional [str]: [None] and the empty string are false. *)
Definition truthy (s : option str) : bool :=
  match s with
  | Some (_ :: _) => true
  | _ => false
  end.

(** The value every [return_period] field is rendered with (line 495). *)
Definition return_period : Z := 1000.

(** Lines 492-499: the map id of one year of one scenario of a model. *)
Definition period_map_id (model : HazardResource.t) (scenario : Scenario.t)
    (year : Z) : result str :=
  match HazardResource.map model with
  | Some map =>
      if truthy (MapInfo.array_name map) then
        let name_format := default [] (MapInfo.array_name map) in
        let! array_name :=
          str_format name_format
            [(u "scenario", PyStr (Scenario.id scenario));
             (u "year", PyInt year);
             (u "id", PyStr (HazardResource.id model));
             (u "return_period", PyInt return_period)] in
        map_id_of array_name
      else Ok []
  | None => Ok []
  end.

(** Lines 491-500: [for year in scenario.years], appending to
    [scenario.periods]. *)
Fixpoint years_loop (model : HazardResource.t) (scenario : Scenario.t)
    (years : list Z) (periods : list Period.t) : result (list Period.t) :=
  match years with
  | [] => Ok periods
  | year :: rest =>
      let! id := period_map_id model scenario year in
      years_loop model scenario rest (periods ++ [Period.Build year id])
  end.

(** Lines 505-507: the exception of a mismatch and its f-string. *)
Definition validation_error (period test_period : Period.t) : exn :=
  Exception (u "validation error: hash " ++ Period.map_id period
             ++ u " different to specified hash " ++ Period.map_id test_period).

(** Lines 503-507: [for period, test_period in zip(...)]. *)
Fixpoint check_loop (pairs : list (Period.t * Period.t)) : result unit :=
  match pairs with
  | [] => Ok tt
  | (period, test_period) :: rest =>
      if bool_decide (Period.map_id period <> Period.map_id test_period)
      then Raise (validation_error period test_period)
      else check_loop rest
  end.

(** Lines 489-507: the body of [for scenario in model.scenarios]; the
    scenario it returns is the scenario object after the mutation. *)
Definition scenario_body (model : HazardResource.t) (scenario : Scenario.t)
    : result Scenario.t :=
  let test_periods := Scenario.periods scenario in
  let! periods := years_loop model scenario (Scenario.years scenario) [] in
  let! _ :=
    match test_periods with
    | Some test_periods => check_loop (zip periods test_periods)
    | None => Ok tt
    end in
  Ok (Scenario.Build (Scenario.id scenario) (Scenario.years scenario)
        (Some periods)).

(** Lines 488-507: [for scenario in model.scenarios]. *)
Fixpoint scenarios_loop (model : HazardResource.t)
    (scenarios : list Scenario.t) : result (list Scenario.t) :=
  match scenarios with
  | [] => Ok []
  | scenario :: rest =>
      let! scenario' := scenario_body model scenario in
      let! rest' := scenarios_loop model rest in
      Ok (scenario' :: rest')
  end.

(** The model object once its scenarios have been mutated. *)
Definition with_scenarios (model : HazardResource.t)
    (scenarios : list Scenario.t) : HazardResource.t :=
  HazardResource.Build (HazardResource.type model) (HazardResource.path model)
    (HazardResource.id model) (HazardResource.params model)
    (HazardResource.display_name model) (HazardResource.description model)
    (HazardResource.array_name model) (HazardResource.map model)
    (HazardResource.units model) scenarios.

(** Lines 487-509: [for model in expanded_models], then
    [return expanded_models].  Every expanded model owns its scenario
    objects, so the mutation of one is not seen through another. *)
Fixpoint models_loop (expanded_models : list HazardResource.t)
    : result (list HazardResource.t) :=
  match expanded_models with
  | [] => Ok []
  | model :: rest =>
      let! scenarios := scenarios_loop model (HazardResource.scenarios model) in
      let! rest' := models_loop rest in
      Ok (with_scenarios model scenarios :: rest')
  end.

Section to_resources.

(** [HazardResource.expand], declared in
    [physrisk/api/v1/hazard_data.py]: the resources a template stands for. *)
Variable expand : HazardResource.t -> list HazardResource.t.

(** [parse_obj_as] turns the dictionaries of [self.models] into the records
    above; [models] are these records. *)
Definition to_resources (models : list HazardResource.t)
    : result (list HazardResource.t) :=
  let expanded_models := concat (expand <$> models) in
  models_loop expanded_models.

End to_resources.

(** ** [Inventory.__init__] *)

Module Inventory.

Record t := Build {
  resources : gmap str HazardResource.t;
  resources_by_type_id : gmap (str * str) (list HazardResource.t)
}.

Definition type_id (resource : HazardResource.t) : str * str :=
  (HazardResource.type resource, HazardResource.id resource).

(** [d[k]] on a [defaultdict(list)]: a missing key is created with an empty
    list.  Returns the list and the dictionary afterwards. *)
Definition defaultdict_getitem {V} (d : gmap (str * str) (list V))
    (k : str * str) : list V * gmap (str * str) (list V) :=
  match d !! k with
  | Some l => (l, d)
  | None => ([], <[k := []]> d)
  end.

Section init.

(** [HazardResource.key]. *)
Variable key : HazardResource.t -> str.

(** The body of [for resource in hazard_resources]. *)
Definition add (self : t) (resource : HazardResource.t) : t :=
  let '(l, by_type_id) :=
    defaultdict_getitem (resources_by_type_id self) (type_id resource) in
  Build (<[key resource := resource]> (resources self))
        (<[type_id resource := l ++ [resource]]> by_type_id).

Definition init (hazard_resources : list HazardResource.t) : t :=
  fold_left add hazard_resources (Build ∅ ∅).

End init.

(** Look-up by type and model id, as a caller does with
    [inventory.resources_by_type_id[(type, id)]]. *)
Definition lookup_by_type_id (self : t) (k : str * str)
    : list HazardResource.t :=
  fst (defaultdict_getitem (resources_by_type_id self) k).

End Inventory.

(** ** The catalog entry WRI/Baseline (lines 13-41, 164-182) *)

Definition methodology_doc : str := u "
For more details and relevant citations see the
[OS-Climate Physical Climate Risk Methodology document](https://github.com/os-climate/physrisk/blob/main/methodology/PhysicalRiskMethodology.pdf).
".

Definition aqueduct_description : str :=
  u "
The World Resources Institute (WRI) [Aqueduct Floods model](https://www.wri.org/aqueduct) is an acute riverine and
coastal flood hazard model with a spatial resolution of 30 " ++ [0xD7] ++ u " 30 arc seconds (approx. 1 km at the equator). Flood intensity is provided
as a _return period_ map: each point comprises a curve of inundation depths for 9 different return periods (also known as
reoccurrence periods). If a flood event has depth $d_i$ with return period of $r_i$ this implies that the probability of a flood
event with depth greater than $d_i$ occurring in any one year is $1 / r_i$; this is the _exceedance probability_.

Aqueduct Floods is based on Global Flood Risk with IMAGE Scenarios (GLOFRIS); see [here](https://www.wri.org/aqueduct/publications)
for more details.

" ++ methodology_doc.

Definition wri_colormap : Colormap.t :=
  Colormap.Build (u "flare") 0 1 0.0%float 255 2.0%float (u "m").

Definition wri_baseline : HazardResource.t :=
  HazardResource.Build
    (u "RiverineInundation")
    (u "inundation/wri/v2")
    (u "000000000WATCH")
    None
    (u "WRI/Baseline")
    (u "
World Resources Institute Aqueduct Floods baseline riverine model using historical data.

                " ++ aqueduct_description)
    (u "inunriver_{scenario}_{id}_{year}")
    (Some (MapInfo.Build (Some wri_colormap)
             (Some (u "inunriver_{scenario}_{id}_{year}_rp{return_period:05d}"))
             (Some (u "mapbox"))))
    (u "metres")
    [Scenario.Build (u "historical") [1980]
       (Some [Period.Build 1980 (u "gw4vgq")])].

(** ** What the spec says an encoding is *)

(** The value of a digit string, most significant digit first. *)
Fixpoint positional_value (base : Z) (ds : list Z) : Z :=
  match ds with
  | [] => 0
  | d :: rest => d * base ^ len rest + positional_value base rest
  end.

(** The character of the alphabet [0-9a-z] that stands for digit [d]. *)
Definition symbol (d : Z) : Z := nth (Z.to_nat d) default_alphabet 0.

(** Base-36 digits without a leading zero; zero itself is the digit [0]. *)
Definition canonical (ds : list Z) : Prop :=
  Forall (fun d => 0 <= d < 36) ds /\ ds <> [] /\ (hd 0 ds = 0 -> ds = [0]).

(** [s] is the base-36 encoding of [n] over [0-9a-z], most significant
    digit first. *)
Definition encodes_base36 (n : Z) (s : str) : Prop :=
  exists ds, canonical ds /\ positional_value 36 ds = n /\ s = symbol <$> ds.

(** A character of [0-9a-z]. *)
Definition alnum (c : Z) : Prop := 48 <= c <= 57 \/ 97 <= c <= 122.

(** ** Notions the properties are stated with *)

(** A digit string that is empty or starts with a non-zero digit. *)
Definition leading_nonzero (ds : list Z) : Prop :=
  match ds with
  | [] => True
  | d :: _ => d <> 0
  end.

(** A computed period and a recorded one that carry the same key. *)
Definition same_map_id (pair : Period.t * Period.t) : Prop :=
  Period.map_id pair.1 = Period.map_id pair.2.

(** What one pass over the years appends. *)
Definition fresh_periods (model : HazardResource.t) (scenario : Scenario.t)
    (years : list Z) (periods : list Period.t) : Prop :=
  Forall2 (fun year p =>
             Period.year p = year
             /\ period_map_id model scenario year = Ok (Period.map_id p))
          years periods.

(** A model after the loop: same fields, every scenario resolved. *)
Definition resolved (model resource : HazardResource.t) : Prop :=
  exists scenarios,
    scenarios_loop model (HazardResource.scenarios model) = Ok scenarios
    /\ resource = with_scenarios model scenarios.

(** A scenario reconciles when its keys are computed and, if it declares
    periods, every pair [zip] yields agrees. *)
Definition reconciles (model : HazardResource.t) (scenario : Scenario.t) : Prop :=
  exists periods,
    years_loop model scenario (Scenario.years scenario) [] = Ok periods
    /\ forall test_periods,
         Scenario.periods scenario = Some test_periods ->
         Forall same_map_id (zip periods test_periods).

(** The entry WRI/Baseline with a wrong recorded key. *)
Definition wri_baseline_tampered : HazardResource.t :=
  with_scenarios wri_baseline
    [Scenario.Build (u "historical") [1980]
       (Some [Period.Build 1980 (u "gw4vgr")])].

(** The entry WRI/Baseline with one recorded period more than it has years. *)
Definition wri_baseline_excess : HazardResource.t :=
  with_scenarios wri_baseline
    [Scenario.Build (u "historical") [1980]
       (Some [Period.Build 1980 (u "gw4vgq"); Period.Build 2030 (u "nokey")])].

(** A resource without a map specification. *)
Definition no_map_resource : HazardResource.t :=
  HazardResource.Build (u "ChronicHeat") (u "chronic_heat/osc/v1")
    (u "mean_degree_days/above/32c") None (u "Mean degree days above 32C")
    (u "Degree days") (u "mean_degree_days_above_32c_{scenario}_{year}")
    None (u "degree days")
    [Scenario.Build (u "ssp585") [2030; 2040; 2050] None;
     Scenario.Build (u "historical") [1980] None].

(** The same resource after the loop: one period per year, with no key. *)
Definition no_map_resource_resolved : HazardResource.t :=
  with_scenarios no_map_resource
    [Scenario.Build (u "ssp585") [2030; 2040; 2050]
       (Some [Period.Build 2030 []; Period.Build 2040 []; Period.Build 2050 []]);
     Scenario.Build (u "historical") [1980] (Some [Period.Build 1980 []])].

(** The character a digit [d] is written with in an alphabet: [alphabet[d]]. *)
Definition glyph (alphabet : str) (d : Z) : Z := nth (Z.to_nat d) alphabet 0.

(** Digits of base [b] without a leading zero; zero itself is the digit [0]. *)
Definition canonical_in (b : Z) (ds : list Z) : Prop :=
  Forall (fun d => 0 <= d < b) ds /\ ds <> [] /\ (hd 0 ds = 0 -> ds = [0]).

(** A map specification [to_resources] takes a template from. *)
Definition has_template (model : HazardResource.t) : Prop :=
  exists map, HazardResource.map model = Some map
              /\ truthy (MapInfo.array_name map) = true.

(** A resource whose map template has no field. *)
Definition plain_template_resource : HazardResource.t :=
  HazardResource.Build (u "CoastalInundation") (u "inundation/wri/v2")
    (u "nosub") None (u "WRI/Baseline no subsidence") (u "")
    (u "inuncoast_historical_nosub_hist_0")
    (Some (MapInfo.Build None (Some (u "inuncoast_historical_nosub_hist_0")) None))
    (u "metres") [Scenario.Build (u "historical") [1980] None].

(** * Properties *)

(** ** The monad *)

Lemma bind_Ok {A B} (r : result A) (k : A -> result B) (b : B) :
  bind r k = Ok b -> exists a, r = Ok a /\ k a = Ok b.
Proof. destruct r; simpl; intros H; try discriminate. eauto. Qed.

Ltac inv_bind H :=
  let a := fresh "a" in
  let Ha := fresh "Ha" in
  apply bind_Ok in H; destruct H as (a & Ha & H).

(** ** Test vectors

    The digests of FIPS 180 for the empty message, ["abc"] and a message of
    two blocks, and the keys written in the catalog for WRI/MIROC-ESM-CHEM
    (lines 298-300). *)

Example sha1_empty :
  int_from_bytes_big (hashlib.sha1_digest [])
  = 0xda39a3ee5e6b4b0d3255bfef95601890afd80709.
Proof. vm_compute. reflexivity. Qed.

Example sha1_abc :
  int_from_bytes_big (hashlib.sha1_digest (u "abc"))
  = 0xa9993e364706816aba3e25717850c26c9cd0d89d.
Proof. vm_compute. reflexivity. Qed.

Example sha1_two_blocks :
  int_from_bytes_big
    (hashlib.sha1_digest
       (u "abcdbcdecdefdefgefghfghighijhijkijkljklmklmnlmnomnopnopq"))
  = 0x84983e441c3bd26ebaae4aa1f95129e5e54670f1.
Proof. vm_compute. reflexivity. Qed.

Example encode_utf8_multibyte :
  encode_utf8 [0x41; 0xD7; 0x20AC; 0x1F600]
  = Ok [0x41; 0xC3; 0x97; 0xE2; 0x82; 0xAC; 0xF0; 0x9F; 0x98; 0x80].
Proof. vm_compute. reflexivity. Qed.

Example miroc_rcp4p5_keys :
  map_id_of (u "inunriver_rcp4p5_MIROC-ESM-CHEM_2030_rp01000") = Ok (u "ht2kn3")
  /\ map_id_of (u "inunriver_rcp4p5_MIROC-ESM-CHEM_2050_rp01000") = Ok (u "1k4boi")
  /\ map_id_of (u "inunriver_rcp4p5_MIROC-ESM-CHEM_2080_rp01000") = Ok (u "3rok7b").
Proof. repeat split; vm_compute; reflexivity. Qed.

Example str_format_fragment :
  str_format (u "a{{b}}c{year:6d}|{year:03}|{id:s}|{return_period:04d}|{year:0}")
    [(u "scenario", PyStr (u "historical")); (u "year", PyInt 1980);
     (u "id", PyStr (u "000000000WATCH")); (u "return_period", PyInt 1000)]
  = Ok (u "a{b}c  1980|1980|000000000WATCH|1000|1980")
  /\ str_format (u "{model}") [(u "year", PyInt 1980)] = Raise (KeyError (u "model"))
  /\ str_format (u "a}") [] = Raise ValueError
  /\ str_format (u "{year") [(u "year", PyInt 1980)] = Raise ValueError
  /\ format_int (u "05d") (-5) = Ok (u "-0005").
Proof. repeat split; vm_compute; reflexivity. Qed.

(** ** UTF-8 *)

Lemma encode_char_scalar (c : Z) :
  scalar_value c -> exists b, encode_char c = Ok b.
Proof.
  intros Hc. unfold encode_char, scalar_value in *.
  repeat (case_match; eauto); lia.
Qed.

Lemma encode_utf8_scalar (text : str) :
  Forall scalar_value text -> exists data, encode_utf8 text = Ok data.
Proof.
  induction 1 as [|c rest Hc _ [bs IH]]; simpl; [eauto|].
  destruct (encode_char_scalar c Hc) as [b ->]. rewrite IH. simpl. eauto.
Qed.

(** ** The digest *)

Lemma be_bytes_range (n : nat) (x : Z) :
  Forall (fun b => 0 <= b < 256) (hashlib.be_bytes n x).
Proof.
  induction n; simpl; constructor; auto. apply Z.mod_pos_bound. lia.
Qed.

Lemma be_bytes_length (n : nat) (x : Z) : length (hashlib.be_bytes n x) = n.
Proof. induction n; simpl; auto. Qed.

Lemma sha1_digest_range (data : bytes) :
  Forall (fun b => 0 <= b < 256) (hashlib.sha1_digest data).
Proof.
  unfold hashlib.sha1_digest. repeat rewrite Forall_app.
  repeat split; apply be_bytes_range.
Qed.

Lemma sha1_digest_length (data : bytes) :
  length (hashlib.sha1_digest data) = 20%nat.
Proof.
  unfold hashlib.sha1_digest. repeat rewrite length_app.
  repeat rewrite be_bytes_length. reflexivity.
Qed.

Lemma len_nil {A} : len (@nil A) = 0.
Proof. reflexivity. Qed.

Lemma len_cons {A} (x : A) (l : list A) : len (x :: l) = Z.succ (len l).
Proof. unfold len. simpl length. lia. Qed.

Lemma len_app {A} (l k : list A) : len (l ++ k) = len l + len k.
Proof. unfold len. rewrite length_app. lia. Qed.

Lemma len_nonneg {A} (l : list A) : 0 <= len l.
Proof. unfold len. lia. Qed.

Lemma positional_value_snoc (base : Z) (ds : list Z) (d : Z) :
  positional_value base (ds ++ [d]) = positional_value base ds * base + d.
Proof.
  induction ds as [|d0 rest IH]; cbn [positional_value app].
  - rewrite len_nil, Z.pow_0_r. lia.
  - rewrite IH, len_app, len_cons, len_nil.
    change (Z.succ 0) with 1.
    rewrite Z.pow_add_r, Z.pow_1_r by (pose proof (len_nonneg rest); lia).
    lia.
Qed.

Lemma fold_left_horner (base : Z) (ds : list Z) (acc : Z) :
  fold_left (fun a x => a * base + x) ds acc
  = acc * base ^ len ds + positional_value base ds.
Proof.
  revert acc. induction ds as [|d rest IH]; intros acc;
    cbn [positional_value fold_left].
  - rewrite len_nil, Z.pow_0_r. lia.
  - rewrite IH, len_cons, Z.pow_succ_r by apply len_nonneg. lia.
Qed.

Lemma int_from_bytes_big_positional (b : bytes) :
  int_from_bytes_big b = positional_value 256 b.
Proof. unfold int_from_bytes_big. rewrite fold_left_horner. lia. Qed.

Lemma positional_value_nonneg (base : Z) (ds : list Z) :
  0 < base -> Forall (fun d => 0 <= d < base) ds ->
  0 <= positional_value base ds < base ^ len ds.
Proof.
  intros Hb. induction 1 as [|d rest Hd _ IH]; cbn [positional_value].
  - change (len (@nil Z)) with 0. rewrite Z.pow_0_r. lia.
  - rewrite len_cons, Z.pow_succ_r by apply len_nonneg.
    set (P := base ^ len rest) in *.
    assert (0 <= d * P) by nia.
    assert (d * P <= (base - 1) * P) by nia.
    lia.
Qed.

Lemma hash_int_range (data : bytes) :
  0 <= int_from_bytes_big (hashlib.sha1_digest data) < 2 ^ 160.
Proof.
  rewrite int_from_bytes_big_positional.
  pose proof (positional_value_nonneg 256 _ ltac:(lia) (sha1_digest_range data)) as H.
  unfold len in H. rewrite sha1_digest_length in H.
  change (256 ^ Z.of_nat 20) with (2 ^ 160) in H. exact H.
Qed.

(** ** [base36encode] *)

Lemma len_default_alphabet : len default_alphabet = 36.
Proof. reflexivity. Qed.

Lemma getitem_nth {A} (s : list A) (i : Z) (d : A) :
  0 <= i < len s -> getitem s i = Ok (nth (Z.to_nat i) s d).
Proof.
  intros Hi. unfold getitem.
  destruct (i <? 0) eqn:Hneg; [lia|]. rewrite Hneg.
  destruct (s !! Z.to_nat i) eqn:Hl.
  - f_equal. symmetry. apply nth_lookup_Some with (d := d) in Hl. exact Hl.
  - apply lookup_ge_None in Hl. unfold len in Hi. lia.
Qed.

Lemma getitem_symbol (d : Z) :
  0 <= d < 36 -> getitem default_alphabet d = Ok (symbol d).
Proof. intros Hd. apply getitem_nth. rewrite len_default_alphabet. exact Hd. Qed.

Lemma alnum_default_alphabet : Forall alnum default_alphabet.
Proof.
  change default_alphabet with
    [48; 49; 50; 51; 52; 53; 54; 55; 56; 57; 97; 98; 99; 100; 101; 102; 103; 104; 105; 106; 107; 108; 109; 110; 111; 112; 113; 114; 115; 116; 117; 118; 119; 120; 121; 122].
  repeat (apply Forall_cons_2; [unfold alnum; lia|]). apply Forall_nil_2.
Qed.

Lemma alnum_symbol (d : Z) : 0 <= d < 36 -> alnum (symbol d).
Proof.
  intros Hd. unfold symbol.
  apply Forall_nth; [apply alnum_default_alphabet|].
  change (length default_alphabet) with 36%nat. lia.
Qed.

Lemma leading_nonzero_lower_bound (ds : list Z) :
  Forall (fun d => 0 <= d < 36) ds -> ds <> [] -> leading_nonzero ds ->
  36 ^ (len ds - 1) <= positional_value 36 ds.
Proof.
  intros Hds Hne Hlead. destruct ds as [|d rest]; [done|].
  inversion Hds as [|? ? Hd Hrest]; subst. cbn [positional_value].
  rewrite len_cons. replace (Z.succ (len rest) - 1) with (len rest) by lia.
  pose proof (positional_value_nonneg 36 rest ltac:(lia) Hrest) as Hv.
  simpl in Hlead.
  assert (0 < 36 ^ len rest) by (apply Z.pow_pos_nonneg; [lia|apply len_nonneg]).
  nia.
Qed.

(** The loop writes the digits of a number whose representation has no
    leading zero, whatever fuel covers its length. *)
Lemma base36encode_while_digits (ds : list Z) :
  Forall (fun d => 0 <= d < 36) ds -> leading_nonzero ds ->
  forall (fuel : nat) (base36 : str),
    (length ds <= fuel)%nat ->
    base36encode_while fuel default_alphabet (positional_value 36 ds) base36
    = Ok ((symbol <$> ds) ++ base36).
Proof.
  induction ds as [|d ds' IH] using rev_ind; intros Hds Hlead fuel base36 Hfuel.
  - destruct fuel; reflexivity.
  - apply Forall_app in Hds as [Hds' Hd].
    inversion Hd as [|? ? Hd0 _]; subst.
    rewrite length_app in Hfuel. simpl in Hfuel.
    destruct fuel as [|fuel]; [lia|].
    rewrite positional_value_snoc.
    assert (Hv : 0 <= positional_value 36 ds')
      by (apply (positional_value_nonneg 36 ds'); [lia|done]).
    assert (Hnz : positional_value 36 ds' * 36 + d <> 0).
    { destruct ds' as [|d0 r]; [simpl in *; lia|].
      pose proof (leading_nonzero_lower_bound (d0 :: r) Hds' ltac:(done) Hlead) as Hlow.
      assert (0 < 36 ^ (len (d0 :: r) - 1)).
      { apply Z.pow_pos_nonneg; [lia|]. rewrite len_cons. pose proof (len_nonneg r). lia. }
      lia. }
    cbn [base36encode_while].
    destruct (positional_value 36 ds' * 36 + d =? 0) eqn:E; [lia|].
    rewrite len_default_alphabet. change (36 =? 0) with false. cbv iota.
    replace ((positional_value 36 ds' * 36 + d) mod 36) with d
      by (rewrite Z.add_comm, Z.mod_add by lia; symmetry; apply Z.mod_small; lia).
    replace ((positional_value 36 ds' * 36 + d) / 36) with (positional_value 36 ds')
      by (rewrite Z.add_comm, Z.div_add by lia; rewrite Z.div_small by lia; lia).
    rewrite getitem_symbol by done. cbn [bind].
    rewrite IH; [|done| |lia].
    + rewrite fmap_app. simpl. rewrite <- app_assoc. reflexivity.
    + destruct ds'; [done|]. simpl in *. done.
Qed.

Lemma canonical_leading_nonzero (ds : list Z) :
  canonical ds -> positional_value 36 ds <> 0 -> leading_nonzero ds.
Proof.
  intros (_ & _ & Hhd) Hv. destruct ds as [|d rest]; [done|].
  simpl in Hhd. simpl. intros ->. specialize (Hhd eq_refl).
  injection Hhd as ->. apply Hv. reflexivity.
Qed.

Lemma canonical_exists (n : Z) :
  0 <= n -> exists ds, canonical ds /\ positional_value 36 ds = n.
Proof.
  revert n. apply (Zlt_0_ind (fun n => exists ds, canonical ds /\ positional_value 36 ds = n)).
  intros n IH Hn. destruct (Z_lt_dec n 36) as [Hsmall|Hbig].
  - exists [n]. split.
    + split; [repeat constructor; lia|]. split; [done|]. simpl. intros ->. done.
    + cbn [positional_value]. change (len (@nil Z)) with 0.
      rewrite Z.pow_0_r. lia.
  - destruct (IH (n / 36)) as (ds & Hcan & Hv).
    { split; [apply Z.div_pos; lia|apply Z.div_lt; lia]. }
    assert (Hq : 1 <= n / 36) by (apply Z.div_le_lower_bound; lia).
    pose proof (canonical_leading_nonzero ds Hcan ltac:(lia)) as Hlead.
    destruct Hcan as (Hds & Hne & _).
    exists (ds ++ [n mod 36]). split.
    + split; [|split].
      * apply Forall_app. split; [done|]. repeat constructor; apply Z.mod_pos_bound; lia.
      * destruct ds; done.
      * destruct ds as [|d r]; [done|]. simpl in *. done.
    + rewrite positional_value_snoc, Hv. pose proof (Z.div_mod n 36 ltac:(lia)). lia.
Qed.

Lemma canonical_nonneg (ds : list Z) :
  canonical ds -> 0 <= positional_value 36 ds.
Proof. intros (Hds & _). apply (positional_value_nonneg 36 ds); [lia|done]. Qed.

Lemma canonical_length_fuel (ds : list Z) :
  canonical ds -> positional_value 36 ds <> 0 ->
  (length ds <= base36encode_fuel (positional_value 36 ds))%nat.
Proof.
  intros Hcan Hnz.
  pose proof (canonical_leading_nonzero ds Hcan Hnz) as Hlead.
  pose proof (canonical_nonneg ds Hcan) as Hv.
  destruct Hcan as (Hds & Hne & _).
  pose proof (leading_nonzero_lower_bound ds Hds Hne Hlead) as Hlow.
  assert (Hlen : 1 <= len ds).
  { destruct ds; [done|]. rewrite len_cons. pose proof (len_nonneg ds). lia. }
  assert (H2 : 2 ^ (len ds - 1) <= 36 ^ (len ds - 1))
    by (apply Z.pow_le_mono_l; lia).
  assert (Hlog : len ds - 1 <= Z.log2 (positional_value 36 ds))
    by (apply Z.log2_le_pow2; lia).
  unfold base36encode_fuel, len in *. lia.
Qed.

Lemma canonical_small (ds : list Z) :
  canonical ds -> positional_value 36 ds < 36 -> ds = [positional_value 36 ds].
Proof.
  intros Hcan Hsmall.
  destruct (Z.eq_dec (positional_value 36 ds) 0) as [Hz|Hnz].
  - destruct Hcan as (Hds & Hne & Hhd).
    destruct ds as [|d rest]; [done|].
    destruct (Z.eq_dec d 0) as [->|Hd].
    + rewrite (Hhd eq_refl). reflexivity.
    + pose proof (leading_nonzero_lower_bound (d :: rest) Hds Hne Hd) as Hlow.
      assert (0 < 36 ^ (len (d :: rest) - 1)).
      { apply Z.pow_pos_nonneg; [lia|]. rewrite len_cons. pose proof (len_nonneg rest). lia. }
      lia.
  - pose proof (canonical_leading_nonzero ds Hcan Hnz) as Hlead.
    destruct Hcan as (Hds & Hne & _).
    pose proof (leading_nonzero_lower_bound ds Hds Hne Hlead) as Hlow.
    destruct ds as [|d [|d' rest]]; [done| |].
    + cbn [positional_value]. change (len (@nil Z)) with 0.
      rewrite Z.pow_0_r. f_equal. lia.
    + exfalso. rewrite !len_cons in Hlow.
      replace (Z.succ (Z.succ (len rest)) - 1) with (Z.succ (len rest)) in Hlow by lia.
      rewrite Z.pow_succ_r in Hlow by apply len_nonneg.
      assert (0 < 36 ^ len rest) by (apply Z.pow_pos_nonneg; [lia|apply len_nonneg]).
      lia.
Qed.

(** [base36encode] returns the digits of a canonical representation. *)
Lemma base36encode_of_canonical (ds : list Z) :
  canonical ds ->
  base36encode (PyInt (positional_value 36 ds)) default_alphabet
  = Ok (symbol <$> ds).
Proof.
  intros Hcan. pose proof (canonical_nonneg ds Hcan) as Hv.
  unfold base36encode. rewrite len_default_alphabet.
  destruct (positional_value 36 ds <? 0) eqn:Hneg; [lia|].
  destruct (positional_value 36 ds <? 36) eqn:Hsmall.
  - replace (0 <=? positional_value 36 ds) with true by lia. cbn [andb].
    rewrite getitem_symbol by lia. cbn [bind].
    rewrite (canonical_small ds Hcan) at 2 by lia. reflexivity.
  - rewrite andb_false_r.
    assert (Hnz : positional_value 36 ds <> 0) by lia.
    rewrite base36encode_while_digits.
    + rewrite app_nil_r. reflexivity.
    + apply Hcan.
    + apply canonical_leading_nonzero; done.
    + apply canonical_length_fuel; done.
Qed.

(** [base36encode] computes the base-36 encoding of every natural number. *)
Lemma base36encode_encodes (n : Z) :
  0 <= n ->
  exists s, base36encode (PyInt n) default_alphabet = Ok s /\ encodes_base36 n s.
Proof.
  intros Hn. destruct (canonical_exists n Hn) as (ds & Hcan & Hv).
  exists (symbol <$> ds). split.
  - rewrite <- Hv. apply base36encode_of_canonical. exact Hcan.
  - exists ds. done.
Qed.

(** The encoding is unique: it is the string [base36encode] returns. *)
Lemma encodes_base36_unique (n : Z) (s : str) :
  encodes_base36 n s -> base36encode (PyInt n) default_alphabet = Ok s.
Proof.
  intros (ds & Hcan & Hv & ->). rewrite <- Hv.
  apply base36encode_of_canonical. exact Hcan.
Qed.

Lemma encodes_base36_alnum (n : Z) (s : str) :
  encodes_base36 n s -> s <> [] /\ Forall alnum s.
Proof.
  intros (ds & (Hds & Hne & _) & _ & ->). split.
  - destruct ds; done.
  - apply Forall_fmap. eapply Forall_impl; [exact Hds|].
    intros d Hd. apply alnum_symbol. exact Hd.
Qed.

(** ** [alphanumeric] *)

Lemma alphanumeric_encoded (text : str) (data : bytes) :
  encode_utf8 text = Ok data ->
  exists enc,
    alphanumeric text = Ok enc
    /\ encodes_base36 (int_from_bytes_big (hashlib.sha1_digest data)) enc.
Proof.
  intros Hdata. unfold alphanumeric. rewrite Hdata. cbn [bind].
  apply base36encode_encodes. apply hash_int_range.
Qed.

Lemma encode_utf8_outcome (text : str) :
  (exists data, encode_utf8 text = Ok data)
  \/ encode_utf8 text = Raise UnicodeEncodeError.
Proof.
  induction text as [|c rest IH]; simpl; [eauto|].
  assert (Hc : (exists b, encode_char c = Ok b)
               \/ encode_char c = Raise UnicodeEncodeError).
  { unfold encode_char. repeat case_match; eauto. }
  destruct Hc as [[b ->]| ->]; [|auto]. cbn [bind].
  destruct IH as [[bs ->]| ->]; cbn [bind]; eauto.
Qed.

Lemma alphanumeric_outcome (text : str) :
  (exists enc, alphanumeric text = Ok enc /\ enc <> [] /\ Forall alnum enc)
  \/ alphanumeric text = Raise UnicodeEncodeError.
Proof.
  destruct (encode_utf8_outcome text) as [[data Hdata]|Herr].
  - left. destruct (alphanumeric_encoded text data Hdata) as (enc & Henc & Hspec).
    exists enc. split; [done|]. eapply encodes_base36_alnum. exact Hspec.
  - right. unfold alphanumeric. rewrite Herr. reflexivity.
Qed.

Lemma map_id_of_outcome (array_name : str) :
  (exists k, map_id_of array_name = Ok k /\ (length k <= 6)%nat /\ Forall alnum k)
  \/ map_id_of array_name = Raise UnicodeEncodeError.
Proof.
  unfold map_id_of.
  destruct (alphanumeric_outcome array_name) as [(enc & -> & _ & Halnum)| ->];
    cbn [bind]; [left|right; reflexivity].
  exists (slice0 6 enc). unfold slice0. split; [done|]. split.
  - rewrite length_take. lia.
  - apply Forall_take. exact Halnum.
Qed.

(** C1: for every string [s], the derived identifier is the first 6
    characters (all of them when there are fewer) of the base-36 encoding,
    over [0-9a-z] and most significant digit first, of the SHA-1 digest of
    the UTF-8 encoding of [s] read as a 160-bit big-endian unsigned integer.
    [encodes_base36] and [positional_value] are the spec's words;
    [alphanumeric] and [map_id_of] are the code. *)
Theorem map_id_of_is_base36_of_sha1 (s : str) (data : bytes) :
  encode_utf8 s = Ok data ->
  let digest := hashlib.sha1_digest data in
  length digest = 20%nat
  /\ Forall (fun b => 0 <= b < 256) digest
  /\ exists enc : str,
       encodes_base36 (positional_value 256 digest) enc
       /\ (forall enc', encodes_base36 (positional_value 256 digest) enc' -> enc' = enc)
       /\ alphanumeric s = Ok enc
       /\ map_id_of s = Ok (take 6 enc)
       /\ ((length enc < 6)%nat -> take 6 enc = enc).
Proof.
  intros Hdata digest. split; [apply sha1_digest_length|].
  split; [apply sha1_digest_range|].
  destruct (alphanumeric_encoded s data Hdata) as (enc & Henc & Hspec).
  rewrite int_from_bytes_big_positional in Hspec. fold digest in Hspec.
  exists enc. split; [exact Hspec|]. split.
  - intros enc' Henc'.
    apply encodes_base36_unique in Hspec. apply encodes_base36_unique in Henc'.
    congruence.
  - split; [exact Henc|]. split.
    + unfold map_id_of. rewrite Henc. reflexivity.
    + intros Hlen. apply take_ge. lia.
Qed.

Lemma map_id_of_is_base36_of_sha1_witness :
  let s := u "abc" in
  let digest := hashlib.sha1_digest (u "abc") in
  encode_utf8 s = Ok (u "abc")
  /\ exists enc : str,
       encodes_base36 (positional_value 256 digest) enc
       /\ map_id_of s = Ok (take 6 enc).
Proof.
  intros s digest. split; [reflexivity|].
  destruct (map_id_of_is_base36_of_sha1 s (u "abc") eq_refl)
    as (_ & _ & enc & Hspec & _ & _ & Hid & _).
  exists enc. split; [exact Hspec|exact Hid].
Defined.

(** C7: for every string, the derived key has at most 6 characters, all of
    them digits or lowercase letters [a-z]. *)
Theorem map_id_of_length_and_charset (text k : str) :
  map_id_of text = Ok k -> (length k <= 6)%nat /\ Forall alnum k.
Proof.
  intros Hk. destruct (map_id_of_outcome text) as [(k' & Hk' & Hlen & Hal)|Herr].
  - rewrite Hk in Hk'. injection Hk' as ->. done.
  - rewrite Hk in Herr. discriminate.
Qed.

Lemma map_id_of_length_and_charset_witness :
  map_id_of (u "mean_degree_days_above_32c_ssp585_2030") = Ok (u "q2wnf3")
  /\ (length (u "q2wnf3") <= 6)%nat /\ Forall alnum (u "q2wnf3").
Proof.
  assert (H : map_id_of (u "mean_degree_days_above_32c_ssp585_2030") = Ok (u "q2wnf3"))
    by (vm_compute; reflexivity).
  split; [exact H|].
  exact (map_id_of_length_and_charset _ _ H).
Defined.

Lemma encode_char_Ok_scalar (c : Z) (b : bytes) :
  encode_char c = Ok b -> scalar_value c.
Proof.
  unfold encode_char, scalar_value. intros H.
  repeat (case_match; try discriminate); lia.
Qed.

Lemma encode_utf8_Ok_scalar (text : str) (data : bytes) :
  encode_utf8 text = Ok data -> Forall scalar_value text.
Proof.
  revert data. induction text as [|c rest IH]; intros data H; [constructor|].
  simpl in H. inv_bind H. inv_bind H.
  constructor; [eapply encode_char_Ok_scalar; eassumption|eapply IH; eassumption].
Qed.

(** A string holding a code point UTF-8 does not encode is not hashed:
    [alphanumeric] raises [UnicodeEncodeError], and on no other string. *)
Lemma alphanumeric_raises_iff (text : str) :
  alphanumeric text = Raise UnicodeEncodeError <-> ~ Forall scalar_value text.
Proof.
  split.
  - intros Hraise Hscalar.
    destruct (encode_utf8_scalar text Hscalar) as [data Hdata].
    destruct (alphanumeric_encoded text data Hdata) as (enc & Henc & _).
    rewrite Henc in Hraise. discriminate Hraise.
  - intros Hnot. destruct (encode_utf8_outcome text) as [[data Hdata]|Herr].
    + exfalso. apply Hnot. eapply encode_utf8_Ok_scalar. exact Hdata.
    + unfold alphanumeric. rewrite Herr. reflexivity.
Qed.

(** C9, as stated, fails: a Python [str] may hold a lone surrogate, and
    [text.encode("utf-8")] then raises [UnicodeEncodeError] before anything
    is hashed, so [alphanumeric] does not succeed on every string. *)
Lemma alphanumeric_lone_surrogate_raises :
  alphanumeric [0xD800] = Raise UnicodeEncodeError
  /\ ~ (forall text : str, exists s, alphanumeric text = Ok s /\ s <> []).
Proof.
  split; [reflexivity|].
  intros H. destruct (H [0xD800]) as (s & Hs & _). discriminate Hs.
Qed.

(** C9, amended: for every string that UTF-8 can encode (no code point in
    U+D800..U+DFFF), the empty string included, [alphanumeric] succeeds and
    returns a non-empty string; the integer read from the digest is never
    negative, and on no string at all does [alphanumeric] raise one of the
    two [TypeError]s of [base36encode] or leave its loop unfinished.  On
    every string that holds a lone surrogate [text.encode("utf-8")] raises
    [UnicodeEncodeError]; [alphanumeric] raises it on the strings UTF-8
    cannot encode and on no other. *)
Theorem alphanumeric_total_on_encodable (text : str) :
  (Forall scalar_value text ->
   exists s, alphanumeric text = Ok s /\ s <> [])
  /\ (exists s, alphanumeric [] = Ok s /\ s <> [])
  /\ (forall data : bytes, 0 <= int_from_bytes_big (hashlib.sha1_digest data))
  /\ (forall msg, alphanumeric text <> Raise (TypeError msg))
  /\ alphanumeric text <> Unmodelled
  /\ (Exists (fun c => 0xD800 <= c <= 0xDFFF) text ->
      encode_utf8 text = Raise UnicodeEncodeError
      /\ alphanumeric text = Raise UnicodeEncodeError)
  /\ (alphanumeric text = Raise UnicodeEncodeError
      <-> ~ Forall scalar_value text).
Proof.
  assert (Htotal : forall t, Forall scalar_value t ->
                             exists s, alphanumeric t = Ok s /\ s <> []).
  { intros t Ht. destruct (encode_utf8_scalar t Ht) as [data Hdata].
    destruct (alphanumeric_encoded t data Hdata) as (enc & Henc & Hspec).
    exists enc. split; [done|]. eapply encodes_base36_alnum. exact Hspec. }
  split; [apply Htotal|]. split; [apply Htotal; constructor|].
  split; [intros data; apply hash_int_range|].
  split; [|split; [|split; [|apply alphanumeric_raises_iff]]].
  - destruct (alphanumeric_outcome text) as [(enc & -> & _)| ->];
      intros; discriminate.
  - destruct (alphanumeric_outcome text) as [(enc & -> & _)| ->]; discriminate.
  - intros Hsurrogate.
    assert (Hnot : ~ Forall scalar_value text).
    { intros Hscalar. apply Exists_exists in Hsurrogate as (c & Hc & Hrange).
      pose proof (proj1 (Forall_forall _ _) Hscalar c Hc) as Hs.
      unfold scalar_value in Hs. lia. }
    split; [|apply alphanumeric_raises_iff; exact Hnot].
    destruct (encode_utf8_outcome text) as [[data Hdata]|Herr]; [|exact Herr].
    exfalso. apply Hnot. eapply encode_utf8_Ok_scalar. exact Hdata.
Qed.

Lemma alphanumeric_total_on_encodable_witness :
  (Forall scalar_value (u "abc")
   /\ exists s, alphanumeric (u "abc") = Ok s /\ s <> [])
  /\ (Exists (fun c => 0xD800 <= c <= 0xDFFF) [97; 0xDC00; 98]
      /\ alphanumeric [97; 0xDC00; 98] = Raise UnicodeEncodeError).
Proof.
  assert (H : Forall scalar_value (u "abc")).
  { change (u "abc") with [97; 98; 99].
    repeat (apply Forall_cons_2; [unfold scalar_value; lia|]). apply Forall_nil_2. }
  assert (Hs : Exists (fun c => 0xD800 <= c <= 0xDFFF) [97; 0xDC00; 98]).
  { apply Exists_cons_tl. apply Exists_cons_hd. lia. }
  split; [split; [exact H|]|split; [exact Hs|]].
  - exact (proj1 (alphanumeric_total_on_encodable (u "abc")) H).
  - exact (proj2 (proj1 (proj2 (proj2 (proj2 (proj2 (proj2
            (alphanumeric_total_on_encodable [97; 0xDC00; 98]))))))
             Hs)).
Defined.

(** ** Period resolution *)

(** The key of a period depends on the model through its map specification
    and id, and on the scenario through its id only. *)
Lemma period_map_id_ext (model model' : HazardResource.t)
    (scenario scenario' : Scenario.t) (year : Z) :
  HazardResource.map model = HazardResource.map model' ->
  HazardResource.id model = HazardResource.id model' ->
  Scenario.id scenario = Scenario.id scenario' ->
  period_map_id model scenario year = period_map_id model' scenario' year.
Proof. unfold period_map_id. intros -> -> ->. reflexivity. Qed.

Lemma years_loop_ext (model model' : HazardResource.t)
    (scenario scenario' : Scenario.t) (years : list Z) (periods : list Period.t) :
  HazardResource.map model = HazardResource.map model' ->
  HazardResource.id model = HazardResource.id model' ->
  Scenario.id scenario = Scenario.id scenario' ->
  years_loop model scenario years periods
  = years_loop model' scenario' years periods.
Proof.
  intros Hmap Hid Hsid. revert periods.
  induction years as [|year rest IH]; intros periods; simpl; [done|].
  rewrite (period_map_id_ext model model' scenario scenario') by done.
  destruct (period_map_id model' scenario' year); simpl; auto.
Qed.

Lemma years_loop_Ok (model : HazardResource.t) (scenario : Scenario.t)
    (years : list Z) (acc periods : list Period.t) :
  years_loop model scenario years acc = Ok periods <->
  exists new, periods = acc ++ new /\ fresh_periods model scenario years new.
Proof.
  split.
  - revert acc. induction years as [|year rest IH]; intros acc H; simpl in H.
    + injection H as <-. exists []. rewrite app_nil_r. split; [done|constructor].
    + inv_bind H. apply IH in H as (new & -> & Hnew).
      exists (Period.Build year a :: new). rewrite <- app_assoc. split; [done|].
      constructor; [done|exact Hnew].
  - intros (new & -> & Hnew). revert acc.
    induction Hnew as [|year p rest new' [Hy Hk] _ IH]; intros acc; simpl.
    + rewrite app_nil_r. reflexivity.
    + rewrite Hk. cbn [bind]. rewrite IH, <- app_assoc.
      destruct p as [y k]. simpl in Hy. subst y. reflexivity.
Qed.

Lemma fresh_periods_years (model : HazardResource.t) (scenario : Scenario.t)
    (years : list Z) (periods : list Period.t) :
  fresh_periods model scenario years periods ->
  Period.year <$> periods = years /\ length periods = length years.
Proof.
  induction 1 as [|year p rest new [Hy _] _ [IH1 IH2]]; [done|].
  rewrite fmap_cons, Hy, IH1. simpl. rewrite IH2. done.
Qed.

Lemma check_loop_Ok (pairs : list (Period.t * Period.t)) :
  check_loop pairs = Ok tt <-> Forall same_map_id pairs.
Proof.
  induction pairs as [|[p tp] rest IH]; simpl.
  - split; [constructor|done].
  - case_bool_decide as Hne.
    + split; [discriminate|]. intros H. inversion H; subst. done.
    + rewrite IH. split.
      * intros H. constructor; [|done]. unfold same_map_id. simpl.
        destruct (decide (Period.map_id p = Period.map_id tp)); [done|]. done.
      * intros H. inversion H; subst. done.
Qed.

Lemma check_loop_first_mismatch (equal rest : list (Period.t * Period.t))
    (period test_period : Period.t) :
  Forall same_map_id equal ->
  Period.map_id period <> Period.map_id test_period ->
  check_loop (equal ++ (period, test_period) :: rest)
  = Raise (validation_error period test_period).
Proof.
  intros Heq Hne. induction Heq as [|[p tp] l Hp _ IH]; simpl.
  - rewrite bool_decide_true by done. reflexivity.
  - rewrite bool_decide_false; [exact IH|]. intros H. apply H. exact Hp.
Qed.

Lemma scenario_body_Ok (model : HazardResource.t) (scenario scenario' : Scenario.t) :
  scenario_body model scenario = Ok scenario' <->
  exists periods,
    years_loop model scenario (Scenario.years scenario) [] = Ok periods
    /\ (forall test_periods, Scenario.periods scenario = Some test_periods ->
                             Forall same_map_id (zip periods test_periods))
    /\ scenario' = Scenario.Build (Scenario.id scenario) (Scenario.years scenario)
                     (Some periods).
Proof.
  unfold scenario_body. split.
  - intros H. inv_bind H. inv_bind H. injection H as <-.
    exists a. split; [done|]. split; [|done].
    intros tps Htps. rewrite Htps in Ha0. destruct a0. apply check_loop_Ok. exact Ha0.
  - intros (periods & -> & Hcheck & ->). cbn [bind].
    destruct (Scenario.periods scenario) as [tps|]; [|reflexivity].
    rewrite (proj2 (check_loop_Ok _) (Hcheck tps eq_refl)). reflexivity.
Qed.

Lemma scenario_body_mismatch (model : HazardResource.t) (scenario : Scenario.t)
    (periods test_periods : list Period.t)
    (equal rest : list (Period.t * Period.t)) (period test_period : Period.t) :
  years_loop model scenario (Scenario.years scenario) [] = Ok periods ->
  Scenario.periods scenario = Some test_periods ->
  zip periods test_periods = equal ++ (period, test_period) :: rest ->
  Forall same_map_id equal ->
  Period.map_id period <> Period.map_id test_period ->
  scenario_body model scenario = Raise (validation_error period test_period).
Proof.
  intros Hps Htps Hzip Heq Hne. unfold scenario_body.
  rewrite Hps, Htps. cbn [bind]. rewrite Hzip.
  rewrite check_loop_first_mismatch by done. reflexivity.
Qed.

Lemma scenarios_loop_Ok (model : HazardResource.t)
    (scenarios scenarios' : list Scenario.t) :
  scenarios_loop model scenarios = Ok scenarios' <->
  Forall2 (fun s s' => scenario_body model s = Ok s') scenarios scenarios'.
Proof.
  split.
  - revert scenarios'. induction scenarios as [|s rest IH]; intros out H; simpl in H.
    + injection H as <-. constructor.
    + inv_bind H. inv_bind H. injection H as <-. constructor; auto.
  - induction 1 as [|s s' rest rest' Hs _ IH]; simpl; [done|].
    rewrite Hs, IH. reflexivity.
Qed.

Lemma scenarios_loop_Raise (model : HazardResource.t)
    (before after done_ : list Scenario.t) (scenario : Scenario.t) (e : exn) :
  scenarios_loop model before = Ok done_ ->
  scenario_body model scenario = Raise e ->
  scenarios_loop model (before ++ scenario :: after) = Raise e.
Proof.
  revert done_. induction before as [|s rest IH]; intros out Hb Hs; simpl in *.
  - rewrite Hs. reflexivity.
  - inv_bind Hb. inv_bind Hb. rewrite Ha. cbn [bind].
    rewrite (IH a0) by done. reflexivity.
Qed.

Lemma models_loop_Ok (expanded_models resources : list HazardResource.t) :
  models_loop expanded_models = Ok resources <->
  Forall2 resolved expanded_models resources.
Proof.
  split.
  - revert resources. induction expanded_models as [|m rest IH]; intros out H; simpl in H.
    + injection H as <-. constructor.
    + inv_bind H. inv_bind H. injection H as <-.
      constructor; [exists a; done|auto].
  - induction 1 as [|m m' rest rest' (ss & Hss & ->) _ IH]; simpl; [done|].
    rewrite Hss, IH. reflexivity.
Qed.

Lemma models_loop_Raise (before after done_ : list HazardResource.t)
    (model : HazardResource.t) (e : exn) :
  models_loop before = Ok done_ ->
  scenarios_loop model (HazardResource.scenarios model) = Raise e ->
  models_loop (before ++ model :: after) = Raise e.
Proof.
  revert done_. induction before as [|m rest IH]; intros out Hb Hm; simpl in *.
  - rewrite Hm. reflexivity.
  - inv_bind Hb. inv_bind Hb. rewrite Ha. cbn [bind].
    rewrite (IH a0) by done. reflexivity.
Qed.

Lemma Forall2_elem_of_l {A B} (P : A -> B -> Prop) (l : list A) (k : list B) (x : A) :
  Forall2 P l k -> x ∈ l -> exists y, y ∈ k /\ P x y.
Proof.
  intros H Hx. apply list_elem_of_lookup in Hx as [i Hi].
  destruct (Forall2_lookup_l P l k i x H Hi) as (y & Hy & HP).
  exists y. split; [|done]. apply list_elem_of_lookup. eauto.
Qed.

Lemma Forall2_elem_of_r {A B} (P : A -> B -> Prop) (l : list A) (k : list B) (y : B) :
  Forall2 P l k -> y ∈ k -> exists x, x ∈ l /\ P x y.
Proof.
  intros H Hy. apply list_elem_of_lookup in Hy as [i Hi].
  destruct (Forall2_lookup_r P l k i y H Hi) as (x & Hx & HP).
  exists x. split; [|done]. apply list_elem_of_lookup. eauto.
Qed.

Lemma Forall2_total {A B} (P : A -> B -> Prop) (l : list A) :
  (forall x, x ∈ l -> exists y, P x y) -> exists k, Forall2 P l k.
Proof.
  induction l as [|x rest IH]; intros H; [exists []; constructor|].
  destruct (H x ltac:(left)) as [y Hy].
  destruct IH as [k Hk]; [intros x' Hx'; apply H; right; done|].
  exists (y :: k). constructor; done.
Qed.

Lemma reconciles_scenario_body (model : HazardResource.t) (scenario : Scenario.t) :
  reconciles model scenario <-> exists s', scenario_body model scenario = Ok s'.
Proof.
  split.
  - intros (periods & Hps & Hcheck). eexists. apply scenario_body_Ok. eauto.
  - intros (s' & Hs'). apply scenario_body_Ok in Hs' as (periods & ? & ? & _).
    exists periods. done.
Qed.

(** C3, as stated, fails: not each recorded key is compared.  With years
    [[1980]] and recorded periods [(1980, gw4vgq)] and [(2030, nokey)], [zip]
    yields one pair; the key [nokey] is compared with nothing, equals no
    computed key, and the load succeeds. *)
Lemma to_resources_excess_recorded_key_not_compared :
  let recorded :=
    [Period.Build 1980 (u "gw4vgq"); Period.Build 2030 (u "nokey")] in
  let scenario := Scenario.Build (u "historical") [1980] (Some recorded) in
  let computed := [Period.Build 1980 (u "gw4vgq")] in
  HazardResource.scenarios wri_baseline_excess = [scenario]
  /\ years_loop wri_baseline_excess scenario [1980] [] = Ok computed
  /\ zip computed recorded
     = [(Period.Build 1980 (u "gw4vgq"), Period.Build 1980 (u "gw4vgq"))]
  /\ Forall (fun p => Period.map_id p <> u "nokey") computed
  /\ to_resources (fun m => [m]) [wri_baseline_excess] = Ok [wri_baseline]
  /\ ~ (forall tp, tp ∈ recorded -> exists p, (p, tp) ∈ zip computed recorded).
Proof.
  intros recorded scenario computed.
  split; [reflexivity|]. split; [vm_compute; reflexivity|].
  split; [reflexivity|]. split.
  - apply Forall_cons_2; [|apply Forall_nil_2].
    intros H. vm_compute in H. discriminate H.
  - split; [vm_compute; reflexivity|].
    intros Hall.
    destruct (Hall (Period.Build 2030 (u "nokey"))) as [p Hp].
    + apply list_elem_of_further. apply list_elem_of_here.
    + apply list_elem_of_singleton in Hp.
      apply (f_equal (fun pair => Period.year pair.2)) in Hp.
      vm_compute in Hp. discriminate Hp.
Qed.

(** C3, amended: a scenario that declares pre-recorded periods has them
    compared with the computed ones pair by pair, in the order of the years,
    over the positions both lists have, as [zip] pairs them.  The load
    succeeds, returning the expanded list with every scenario resolved,
    exactly when every scenario has its keys computed and every compared pair
    agrees; at the first pair that differs the load raises an error whose
    message holds the computed key and the recorded key, and no list is
    returned. *)
Theorem to_resources_reconciliation
    (expand : HazardResource.t -> list HazardResource.t)
    (models : list HazardResource.t) :
  let expanded_models := concat (expand <$> models) in
  ((forall model scenario,
       model ∈ expanded_models ->
       scenario ∈ HazardResource.scenarios model ->
       reconciles model scenario)
   <-> exists resources,
         to_resources expand models = Ok resources
         /\ Forall2 resolved expanded_models resources)
  /\ (forall before model after done_models
             scenarios_before scenario scenarios_after done_scenarios
             periods test_periods equal period test_period rest,
        expanded_models = before ++ model :: after ->
        models_loop before = Ok done_models ->
        HazardResource.scenarios model
        = scenarios_before ++ scenario :: scenarios_after ->
        scenarios_loop model scenarios_before = Ok done_scenarios ->
        years_loop model scenario (Scenario.years scenario) [] = Ok periods ->
        Scenario.periods scenario = Some test_periods ->
        zip periods test_periods = equal ++ (period, test_period) :: rest ->
        Forall same_map_id equal ->
        Period.map_id period <> Period.map_id test_period ->
        to_resources expand models
        = Raise (Exception
                   (u "validation error: hash " ++ Period.map_id period
                    ++ u " different to specified hash "
                    ++ Period.map_id test_period))).
Proof.
  intros expanded_models. unfold to_resources. fold expanded_models. split.
  - split.
    + intros Hall.
      destruct (Forall2_total resolved expanded_models) as [resources Hres].
      { intros model Hmodel.
        destruct (Forall2_total (fun s s' => scenario_body model s = Ok s')
                    (HazardResource.scenarios model)) as [ss Hss].
        { intros s Hs. apply reconciles_scenario_body. apply Hall; done. }
        exists (with_scenarios model ss), ss. split; [|done].
        apply scenarios_loop_Ok. exact Hss. }
      exists resources. split; [|done]. apply models_loop_Ok. exact Hres.
    + intros (resources & Hok & _) model scenario Hmodel Hscenario.
      apply models_loop_Ok in Hok.
      destruct (Forall2_elem_of_l _ _ _ _ Hok Hmodel) as (r & _ & ss & Hss & _).
      apply scenarios_loop_Ok in Hss.
      destruct (Forall2_elem_of_l _ _ _ _ Hss Hscenario) as (s' & _ & Hs').
      apply reconciles_scenario_body. eauto.
  - intros before model after done_models sb scenario sa done_scenarios
      periods test_periods equal period test_period rest
      -> Hbefore Hss Hsb Hps Htps Hzip Heq Hne.
    apply (models_loop_Raise before after done_models); [done|].
    rewrite Hss. apply (scenarios_loop_Raise model sb sa done_scenarios); [done|].
    apply (scenario_body_mismatch model scenario periods test_periods equal rest);
      done.
Qed.

(** The key recorded in the catalog for WRI/Baseline is the computed one:
    the entry loads, and comes back as it was written. *)
Lemma wri_baseline_resolves :
  to_resources (fun m => [m]) [wri_baseline] = Ok [wri_baseline].
Proof. vm_compute. reflexivity. Qed.

Lemma to_resources_reconciliation_witness :
  (exists resources, to_resources (fun m => [m]) [wri_baseline] = Ok resources)
  /\ to_resources (fun m => [m]) [wri_baseline_tampered]
     = Raise (Exception
                (u "validation error: hash gw4vgq different to specified hash gw4vgr")).
Proof.
  split.
  - destruct (proj1 (proj1 (to_resources_reconciliation (fun m => [m]) [wri_baseline])))
      as (resources & Hok & _); [|exists resources; exact Hok].
    intros model scenario Hmodel Hscenario.
    apply list_elem_of_singleton in Hmodel. subst model.
    apply list_elem_of_singleton in Hscenario. subst scenario.
    exists [Period.Build 1980 (u "gw4vgq")]. split; [vm_compute; reflexivity|].
    intros test_periods Htest. injection Htest as <-.
    apply Forall_cons_2; [reflexivity|apply Forall_nil_2].
  - etrans.
    + apply (proj2 (to_resources_reconciliation (fun m => [m]) [wri_baseline_tampered])
               [] wri_baseline_tampered [] []
               [] (Scenario.Build (u "historical") [1980]
                     (Some [Period.Build 1980 (u "gw4vgr")])) [] []
               [Period.Build 1980 (u "gw4vgq")] [Period.Build 1980 (u "gw4vgr")]
               [] (Period.Build 1980 (u "gw4vgq")) (Period.Build 1980 (u "gw4vgr")) []);
        [reflexivity|reflexivity|reflexivity|reflexivity|vm_compute; reflexivity
        |reflexivity|reflexivity|apply Forall_nil_2|vm_compute; discriminate].
    + vm_compute. reflexivity.
Defined.

(** C4: in every resolved resource, every scenario with [k] declared years
    has, after resolution, a period list of exactly [k] (year, key) pairs,
    one per declared year and in the order of the years; the key of each is
    the one computed for that year, and the periods the scenario carried
    before play no part in it: they are replaced. *)
Theorem to_resources_one_period_per_year
    (expand : HazardResource.t -> list HazardResource.t)
    (models resources : list HazardResource.t) :
  to_resources expand models = Ok resources ->
  Forall2
    (fun model resource =>
       resource = with_scenarios model (HazardResource.scenarios resource)
       /\ Forall2
            (fun scenario scenario' =>
               Scenario.id scenario' = Scenario.id scenario
               /\ Scenario.years scenario' = Scenario.years scenario
               /\ exists periods,
                    Scenario.periods scenario' = Some periods
                    /\ length periods = length (Scenario.years scenario)
                    /\ Period.year <$> periods = Scenario.years scenario
                    /\ Forall2
                         (fun year p =>
                            Period.year p = year
                            /\ period_map_id resource scenario' year
                               = Ok (Period.map_id p))
                         (Scenario.years scenario) periods
                    /\ forall recorded,
                         years_loop model
                           (Scenario.Build (Scenario.id scenario)
                              (Scenario.years scenario) recorded)
                           (Scenario.years scenario) []
                         = Ok periods)
            (HazardResource.scenarios model)
            (HazardResource.scenarios resource))
    (concat (expand <$> models)) resources.
Proof.
  unfold to_resources. intros Hok. apply models_loop_Ok in Hok.
  eapply Forall2_impl; [exact Hok|].
  intros model resource (ss & Hss & ->). split; [reflexivity|].
  apply scenarios_loop_Ok in Hss. simpl.
  eapply Forall2_impl; [exact Hss|].
  intros scenario scenario' Hbody.
  apply scenario_body_Ok in Hbody as (periods & Hps & _ & ->). simpl.
  split; [done|]. split; [done|]. exists periods. split; [done|].
  pose proof Hps as Hfresh.
  apply years_loop_Ok in Hfresh as (new & Hnew & Hfresh). simpl in Hnew. subst new.
  destruct (fresh_periods_years _ _ _ _ Hfresh) as [Hyears Hlen].
  split; [done|]. split; [done|]. split.
  - eapply Forall2_impl; [exact Hfresh|].
    intros year p [Hy Hk]. split; [done|].
    rewrite <- Hk. apply period_map_id_ext; reflexivity.
  - intros recorded. rewrite <- Hps. apply years_loop_ext; reflexivity.
Qed.

Lemma to_resources_one_period_per_year_witness :
  exists resources,
    to_resources (fun m => [m]) [wri_baseline] = Ok resources
    /\ Forall2
         (fun model resource =>
            Forall2
              (fun scenario scenario' =>
                 exists periods,
                   Scenario.periods scenario' = Some periods
                   /\ Period.year <$> periods = Scenario.years scenario)
              (HazardResource.scenarios model)
              (HazardResource.scenarios resource))
         [wri_baseline] resources.
Proof.
  pose proof wri_baseline_resolves as Hok.
  pose proof (to_resources_one_period_per_year
                (fun m => [m]) [wri_baseline] [wri_baseline] Hok) as H.
  exists [wri_baseline]. split; [exact Hok|].
  eapply Forall2_impl; [exact H|].
  intros model resource [_ Hss]. eapply Forall2_impl; [exact Hss|].
  intros scenario scenario' (_ & _ & periods & Hps & _ & Hyears & _).
  exists periods. split; [exact Hps|exact Hyears].
Defined.

Lemma period_map_id_no_template (model : HazardResource.t)
    (scenario : Scenario.t) (year : Z) :
  HazardResource.map model = None
  \/ (exists map, HazardResource.map model = Some map
                  /\ (MapInfo.array_name map = None
                      \/ MapInfo.array_name map = Some [])) ->
  period_map_id model scenario year = Ok [].
Proof.
  unfold period_map_id. intros [-> | (map & -> & [-> | ->])]; reflexivity.
Qed.

(** C8: in a resolved resource that has no map specification, or whose map
    specification has no array-name template or an empty one, every scenario
    has its periods, and the key of every one of them is the empty string. *)
Theorem to_resources_no_template_empty_key
    (expand : HazardResource.t -> list HazardResource.t)
    (models resources : list HazardResource.t)
    (resource : HazardResource.t) (scenario : Scenario.t) :
  to_resources expand models = Ok resources ->
  resource ∈ resources ->
  HazardResource.map resource = None
  \/ (exists map, HazardResource.map resource = Some map
                  /\ (MapInfo.array_name map = None
                      \/ MapInfo.array_name map = Some [])) ->
  scenario ∈ HazardResource.scenarios resource ->
  exists periods,
    Scenario.periods scenario = Some periods
    /\ length periods = length (Scenario.years scenario)
    /\ Forall (fun p => Period.map_id p = []) periods.
Proof.
  unfold to_resources. intros Hok Hres Hmap Hscenario.
  apply models_loop_Ok in Hok.
  destruct (Forall2_elem_of_r _ _ _ _ Hok Hres) as (model & _ & ss & Hss & ->).
  simpl in Hmap, Hscenario. apply scenarios_loop_Ok in Hss.
  destruct (Forall2_elem_of_r _ _ _ _ Hss Hscenario) as (s & _ & Hbody).
  apply scenario_body_Ok in Hbody as (periods & Hps & _ & ->). simpl.
  exists periods. split; [done|].
  apply years_loop_Ok in Hps as (new & Hnew & Hfresh). simpl in Hnew. subst new.
  split; [apply (fresh_periods_years _ _ _ _ Hfresh)|].
  clear -Hfresh Hmap. induction Hfresh as [|year p rest ps [_ Hk] _ IH]; constructor; [|done].
  rewrite (period_map_id_no_template model s year Hmap) in Hk. congruence.
Qed.

Lemma no_map_resource_resolves :
  to_resources (fun m => [m]) [no_map_resource] = Ok [no_map_resource_resolved].
Proof. vm_compute. reflexivity. Qed.

Lemma to_resources_no_template_empty_key_witness :
  exists periods,
    Scenario.periods
      (Scenario.Build (u "ssp585") [2030; 2040; 2050]
         (Some [Period.Build 2030 []; Period.Build 2040 []; Period.Build 2050 []]))
    = Some periods
    /\ length periods = 3%nat
    /\ Forall (fun p => Period.map_id p = []) periods.
Proof.
  apply (to_resources_no_template_empty_key (fun m => [m]) [no_map_resource]
           [no_map_resource_resolved] no_map_resource_resolved
           (Scenario.Build (u "ssp585") [2030; 2040; 2050]
              (Some [Period.Build 2030 []; Period.Build 2040 []; Period.Build 2050 []]))
           no_map_resource_resolves).
  - apply list_elem_of_singleton. reflexivity.
  - left. reflexivity.
  - apply list_elem_of_here.
Defined.

(** C10: when the recorded periods of a scenario and its years differ in
    number, reconciliation compares the first
    [min (number of years) (number of recorded periods)] positions only.
    Recorded periods beyond the declared years change nothing: the outcome
    is the one of the scenario without them. *)
Theorem reconciliation_ignores_excess_recorded_periods
    (model : HazardResource.t) (scenario : Scenario.t)
    (test_periods : list Period.t) :
  let recorded tps :=
    Scenario.Build (Scenario.id scenario) (Scenario.years scenario) (Some tps) in
  let n := min (length (Scenario.years scenario)) (length test_periods) in
  scenario_body model (recorded test_periods)
  = scenario_body model
      (recorded (take (length (Scenario.years scenario)) test_periods))
  /\ (forall excess,
        (length (Scenario.years scenario) <= length test_periods)%nat ->
        scenario_body model (recorded (test_periods ++ excess))
        = scenario_body model (recorded test_periods))
  /\ (forall periods,
        years_loop model scenario (Scenario.years scenario) [] = Ok periods ->
        length (zip periods test_periods) = n
        /\ zip periods test_periods = zip (take n periods) (take n test_periods)
        /\ scenario_body model (recorded test_periods)
           = (let! _ := check_loop (zip (take n periods) (take n test_periods)) in
              Ok (recorded periods))).
Proof.
  intros recorded n.
  assert (Hloop : forall tps,
             years_loop model (recorded tps) (Scenario.years scenario) []
             = years_loop model scenario (Scenario.years scenario) []).
  { intros tps. apply years_loop_ext; reflexivity. }
  assert (Hlen : forall periods,
             years_loop model scenario (Scenario.years scenario) [] = Ok periods ->
             length periods = length (Scenario.years scenario)).
  { intros periods Hps. apply years_loop_Ok in Hps as (new & -> & Hfresh).
    apply (fresh_periods_years _ _ _ _ Hfresh). }
  assert (Htake : forall tps,
             scenario_body model (recorded tps)
             = scenario_body model
                 (recorded (take (length (Scenario.years scenario)) tps))).
  { intros tps. unfold scenario_body. simpl. rewrite !Hloop.
    destruct (years_loop model scenario (Scenario.years scenario) [])
      as [periods| |] eqn:Hps; [|reflexivity|reflexivity].
    cbn [bind]. rewrite <- (Hlen periods eq_refl), zip_with_take_r. reflexivity. }
  split; [apply Htake|]. split.
  - intros excess Hle. rewrite (Htake (test_periods ++ excess)), (Htake test_periods).
    rewrite take_app_le by lia. reflexivity.
  - intros periods Hps. pose proof (Hlen periods Hps) as Hl.
    assert (Hzip : zip periods test_periods
                   = zip (take n periods) (take n test_periods)).
    { symmetry. apply zip_with_take_both'; unfold n; lia. }
    split; [rewrite length_zip; unfold n; lia|]. split; [exact Hzip|].
    unfold scenario_body. simpl. rewrite Hloop, Hps. cbn [bind].
    rewrite <- Hzip. destruct (check_loop (zip periods test_periods)); reflexivity.
Qed.

Lemma reconciliation_ignores_excess_recorded_periods_witness :
  let scenario tps := Scenario.Build (u "historical") [1980] (Some tps) in
  ((1 <= 1)%nat
   /\ scenario_body wri_baseline
        (scenario ([Period.Build 1980 (u "gw4vgq")] ++ [Period.Build 2030 (u "nokey")]))
      = scenario_body wri_baseline (scenario [Period.Build 1980 (u "gw4vgq")]))
  /\ (years_loop wri_baseline (Scenario.Build (u "historical") [1980] None) [1980] []
      = Ok [Period.Build 1980 (u "gw4vgq")]
      /\ length (zip [Period.Build 1980 (u "gw4vgq")]
                    [Period.Build 1980 (u "gw4vgq"); Period.Build 2030 (u "nokey")])
         = 1%nat).
Proof.
  intros scenario.
  assert (Hloop : years_loop wri_baseline
                    (Scenario.Build (u "historical") [1980] None) [1980] []
                  = Ok [Period.Build 1980 (u "gw4vgq")])
    by (vm_compute; reflexivity).
  split; [split; [lia|]|split; [exact Hloop|]].
  - apply (proj1 (proj2 (reconciliation_ignores_excess_recorded_periods wri_baseline
                           (Scenario.Build (u "historical") [1980] None)
                           [Period.Build 1980 (u "gw4vgq")]))
             [Period.Build 2030 (u "nokey")]).
    simpl. lia.
  - exact (proj1 (proj2 (proj2 (reconciliation_ignores_excess_recorded_periods
                                  wri_baseline
                                  (Scenario.Build (u "historical") [1980] None)
                                  [Period.Build 1980 (u "gw4vgq");
                                   Period.Build 2030 (u "nokey")]))
                    [Period.Build 1980 (u "gw4vgq")] Hloop)).
Defined.

(** C2: a resource with map template
    [inunriver_{scenario}_{id}_{year}_rp{return_period:05d}] and id
    [000000000WATCH], and a scenario [historical] with years [1980]: the
    return-period field is rendered with the value 1000, as [01000], and the
    period computed for 1980 has the key
    [alphanumeric("inunriver_historical_000000000WATCH_1980_rp01000")[0:6]],
    which is [gw4vgq]. *)
Theorem wri_baseline_1980_key
    (model : HazardResource.t) (map : MapInfo.t) (scenario : Scenario.t) :
  HazardResource.map model = Some map ->
  MapInfo.array_name map
  = Some (u "inunriver_{scenario}_{id}_{year}_rp{return_period:05d}") ->
  HazardResource.id model = u "000000000WATCH" ->
  Scenario.id scenario = u "historical" ->
  Scenario.years scenario = [1980] ->
  return_period = 1000
  /\ format_int (u "05d") return_period = Ok (u "01000")
  /\ str_format (u "inunriver_{scenario}_{id}_{year}_rp{return_period:05d}")
       [(u "scenario", PyStr (Scenario.id scenario));
        (u "year", PyInt 1980);
        (u "id", PyStr (HazardResource.id model));
        (u "return_period", PyInt return_period)]
     = Ok (u "inunriver_historical_000000000WATCH_1980_rp01000")
  /\ exists h,
       alphanumeric (u "inunriver_historical_000000000WATCH_1980_rp01000") = Ok h
       /\ years_loop model scenario (Scenario.years scenario) []
          = Ok [Period.Build 1980 (slice0 6 h)]
       /\ (Scenario.periods scenario = None ->
           scenario_body model scenario
           = Ok (Scenario.Build (u "historical") [1980]
                   (Some [Period.Build 1980 (slice0 6 h)])))
       /\ slice0 6 h = u "gw4vgq".
Proof.
  intros Hmap Htemplate Hid Hsid Hyears.
  split; [reflexivity|]. split; [vm_compute; reflexivity|].
  rewrite Hid, Hsid. split; [vm_compute; reflexivity|].
  destruct (alphanumeric (u "inunriver_historical_000000000WATCH_1980_rp01000"))
    as [h| |] eqn:Hh; [|vm_compute in Hh; discriminate..].
  assert (Hkey : slice0 6 h = u "gw4vgq").
  { vm_compute in Hh. injection Hh as <-. vm_compute. reflexivity. }
  assert (Hloop : years_loop model scenario (Scenario.years scenario) []
                  = Ok [Period.Build 1980 (slice0 6 h)]).
  { rewrite Hyears. cbn [years_loop]. unfold period_map_id.
    rewrite Hmap, Htemplate, Hid, Hsid. cbn [truthy u default].
    rewrite Hkey. vm_compute. reflexivity. }
  exists h. split; [reflexivity|]. split; [exact Hloop|]. split; [|exact Hkey].
  intros Hnone. unfold scenario_body. rewrite Hloop, Hnone, Hsid, Hyears.
  reflexivity.
Qed.

Lemma wri_baseline_1980_key_witness :
  exists h,
    alphanumeric (u "inunriver_historical_000000000WATCH_1980_rp01000") = Ok h
    /\ years_loop wri_baseline
         (Scenario.Build (u "historical") [1980] None) [1980] []
       = Ok [Period.Build 1980 (slice0 6 h)].
Proof.
  destruct (wri_baseline_1980_key wri_baseline
              (MapInfo.Build (Some wri_colormap)
                 (Some (u "inunriver_{scenario}_{id}_{year}_rp{return_period:05d}"))
                 (Some (u "mapbox")))
              (Scenario.Build (u "historical") [1980] None)
              eq_refl eq_refl eq_refl eq_refl eq_refl)
    as (_ & _ & _ & h & Hh & Hloop & _).
  exists h. split; [exact Hh|exact Hloop].
Defined.

(** ** The inventory *)

Section inventory_properties.

Variable key : HazardResource.t -> str.

Lemma init_snoc (rs : list HazardResource.t) (r : HazardResource.t) :
  Inventory.init key (rs ++ [r]) = Inventory.add key (Inventory.init key rs) r.
Proof. unfold Inventory.init. rewrite fold_left_app. reflexivity. Qed.

Lemma resources_add (self : Inventory.t) (r : HazardResource.t) :
  Inventory.resources (Inventory.add key self r)
  = <[key r := r]> (Inventory.resources self).
Proof.
  unfold Inventory.add.
  destruct (Inventory.defaultdict_getitem _ _). reflexivity.
Qed.

Lemma resources_by_type_id_add (self : Inventory.t) (r : HazardResource.t)
    (p : str * str) :
  Inventory.resources_by_type_id (Inventory.add key self r) !! p
  = if decide (Inventory.type_id r = p)
    then Some (default [] (Inventory.resources_by_type_id self !! p) ++ [r])
    else Inventory.resources_by_type_id self !! p.
Proof.
  unfold Inventory.add, Inventory.defaultdict_getitem.
  destruct (Inventory.resources_by_type_id self !! Inventory.type_id r) eqn:Hl;
    simpl; case_decide as Hp; subst.
  - rewrite lookup_insert_eq, Hl. reflexivity.
  - rewrite lookup_insert_ne by done. reflexivity.
  - rewrite lookup_insert_eq, Hl. reflexivity.
  - rewrite !lookup_insert_ne by done. reflexivity.
Qed.

(** The composite-key table holds, under each key, the last resource of
    the sequence that has this key. *)
Lemma resources_lookup (rs : list HazardResource.t) (k : str) :
  Inventory.resources (Inventory.init key rs) !! k
  = last (filter (fun r => key r = k) rs).
Proof.
  induction rs as [|r rs IH] using rev_ind; [reflexivity|].
  rewrite init_snoc, resources_add, filter_app.
  destruct (decide (key r = k)) as [Hk|Hk].
  - rewrite Hk, lookup_insert_eq, filter_cons_True by done.
    rewrite filter_nil, last_snoc. reflexivity.
  - rewrite lookup_insert_ne, filter_cons_False by done.
    rewrite filter_nil, app_nil_r. exact IH.
Qed.

(** The table by type and id holds, under each pair, the resources of the
    sequence that have this pair, in the order of the sequence; a pair no
    resource has is not a key. *)
Lemma resources_by_type_id_lookup (rs : list HazardResource.t) (p : str * str) :
  Inventory.resources_by_type_id (Inventory.init key rs) !! p
  = match filter (fun r => Inventory.type_id r = p) rs with
    | [] => None
    | l => Some l
    end.
Proof.
  induction rs as [|r rs IH] using rev_ind; [reflexivity|].
  rewrite init_snoc, resources_by_type_id_add, filter_app, IH.
  case_decide as Hp.
  - rewrite filter_cons_True, filter_nil by done.
    destruct (filter _ rs); reflexivity.
  - rewrite filter_cons_False, filter_nil, app_nil_r by done. reflexivity.
Qed.

Lemma lookup_by_type_id_filter (rs : list HazardResource.t) (p : str * str) :
  Inventory.lookup_by_type_id (Inventory.init key rs) p
  = filter (fun r => Inventory.type_id r = p) rs.
Proof.
  unfold Inventory.lookup_by_type_id, Inventory.defaultdict_getitem.
  rewrite resources_by_type_id_lookup.
  destruct (filter _ rs); reflexivity.
Qed.

End inventory_properties.

Lemma sum_list_with_indicator {A} `{EqDecision A} (g : A -> nat) (a : A) (l : list A) :
  NoDup l -> a ∈ l ->
  sum_list_with (fun x => g x + (if decide (a = x) then 1 else 0))%nat l
  = S (sum_list_with g l).
Proof.
  intros Hnd Ha. induction Hnd as [|x l Hx Hnd IH]; [inversion Ha|].
  simpl. destruct (decide (a = x)) as [->|Hne].
  - assert (Hrest : sum_list_with (fun y => g y + (if decide (x = y) then 1 else 0))%nat l
                    = sum_list_with g l).
    { clear IH Ha Hnd. induction l as [|y l IHl]; [reflexivity|]. simpl.
      destruct (decide (x = y)) as [->|_].
      - exfalso. apply Hx. left.
      - rewrite IHl; [lia|]. intros H. apply Hx. right. exact H. }
    rewrite Hrest. lia.
  - rewrite IH; [lia|]. apply elem_of_cons in Ha as [Ha|Ha]; [done|exact Ha].
Qed.

Lemma sum_list_with_pointwise {A} (f g : A -> nat) (l : list A) :
  (forall x, f x = g x) -> sum_list_with f l = sum_list_with g l.
Proof. intros H. induction l as [|x l IH]; simpl; [reflexivity|]. rewrite H, IH. reflexivity. Qed.

(** Grouping a list by a function of its elements loses no element. *)
Lemma sum_length_filter {A K} `{EqDecision K} (f : A -> K) (ps : list K) (rs : list A) :
  NoDup ps -> (forall r, r ∈ rs -> f r ∈ ps) ->
  sum_list_with (fun p => length (filter (fun r => f r = p) rs)) ps = length rs.
Proof.
  intros Hnd. induction rs as [|r rs IH]; intros Hin.
  - clear. induction ps as [|p ps IHps]; [reflexivity|]. simpl. exact IHps.
  - simpl. rewrite <- IH by (intros r' Hr'; apply Hin; right; exact Hr').
    rewrite <- (sum_list_with_indicator _ (f r) ps Hnd) by (apply Hin; left).
    clear. induction ps as [|p ps IHps]; [reflexivity|]. simpl. rewrite IHps.
    f_equal. rewrite filter_cons. destruct (decide (f r = p)); simpl; lia.
Qed.

Lemma last_filter_last_match {A} (P : A -> Prop) `{forall x, Decision (P x)}
    (l1 l2 : list A) (x : A) :
  P x -> Forall (fun y => ~ P y) l2 -> last (filter P (l1 ++ x :: l2)) = Some x.
Proof.
  intros Hx Hl2. rewrite filter_app, filter_cons_True by exact Hx.
  replace (filter P l2) with (@nil A); [apply last_snoc|].
  symmetry. induction Hl2 as [|y l Hy _ IH]; [reflexivity|].
  rewrite filter_cons_False by exact Hy. exact IH.
Qed.

(** C5, as stated, fails: given two resources with the same composite key,
    [Inventory.__init__] raises nothing; it builds the inventory, and the
    composite-key table holds the second resource in place of the first. *)
Lemma Inventory_duplicate_key_overwrites :
  let inventory :=
    Inventory.init HazardResource.key [wri_baseline; wri_baseline_tampered] in
  HazardResource.key wri_baseline = HazardResource.key wri_baseline_tampered
  /\ wri_baseline <> wri_baseline_tampered
  /\ Inventory.resources inventory !! HazardResource.key wri_baseline
     = Some wri_baseline_tampered
  /\ size (Inventory.resources inventory) = 1%nat
  /\ ~ (forall r1 r2 : HazardResource.t,
          HazardResource.key r1 = HazardResource.key r2 -> r1 <> r2 ->
          Inventory.resources (Inventory.init HazardResource.key [r1; r2])
            !! HazardResource.key r1 <> Some r2).
Proof.
  intros inventory.
  assert (Hkey : HazardResource.key wri_baseline
                 = HazardResource.key wri_baseline_tampered)
    by (vm_compute; reflexivity).
  assert (Hne : wri_baseline <> wri_baseline_tampered).
  { intros H. apply (f_equal HazardResource.scenarios) in H.
    vm_compute in H. discriminate H. }
  assert (Hlast : Inventory.resources inventory !! HazardResource.key wri_baseline
                  = Some wri_baseline_tampered).
  { unfold inventory. rewrite resources_lookup. vm_compute. reflexivity. }
  split; [exact Hkey|]. split; [exact Hne|]. split; [exact Hlast|]. split.
  - unfold inventory, Inventory.init. cbn [fold_left].
    rewrite !resources_add, <- Hkey, insert_insert_eq.
    cbn [Inventory.resources]. rewrite insert_empty. apply map_size_singleton.
  - intros Hclaim. exact (Hclaim _ _ Hkey Hne Hlast).
Qed.

(** C5, amended: when the sequence holds two resources with the same
    composite key, [Inventory.__init__] builds the inventory all the same,
    and the composite-key table holds the later of the two (the last write
    wins); in general it holds, under each key, the last resource of the
    sequence with that key. *)
Theorem Inventory_duplicate_key_last_write_wins
    (key : HazardResource.t -> str)
    (before between after : list HazardResource.t) (r1 r2 : HazardResource.t) :
  key r1 = key r2 ->
  Forall (fun r => key r <> key r2) after ->
  let hazard_resources := before ++ r1 :: between ++ r2 :: after in
  let inventory := Inventory.init key hazard_resources in
  Inventory.resources inventory !! key r1 = Some r2
  /\ forall k,
       Inventory.resources inventory !! k
       = last (filter (fun r => key r = k) hazard_resources).
Proof.
  intros Hkey Hafter hazard_resources inventory. split; [|apply resources_lookup].
  unfold inventory. rewrite resources_lookup.
  replace hazard_resources with ((before ++ r1 :: between) ++ r2 :: after)
    by (unfold hazard_resources; rewrite <- app_assoc; reflexivity).
  apply last_filter_last_match; [symmetry; exact Hkey|].
  eapply Forall_impl; [exact Hafter|]. intros r Hr. rewrite Hkey. exact Hr.
Qed.

Lemma Inventory_duplicate_key_last_write_wins_witness :
  HazardResource.key wri_baseline = HazardResource.key wri_baseline_tampered
  /\ Inventory.resources
       (Inventory.init HazardResource.key
          ([] ++ wri_baseline :: [no_map_resource] ++ wri_baseline_tampered :: []))
     !! HazardResource.key wri_baseline
     = Some wri_baseline_tampered.
Proof.
  assert (Hkey : HazardResource.key wri_baseline
                 = HazardResource.key wri_baseline_tampered)
    by (vm_compute; reflexivity).
  split; [exact Hkey|].
  exact (proj1 (Inventory_duplicate_key_last_write_wins HazardResource.key
                  [] [no_map_resource] [] wri_baseline wri_baseline_tampered
                  Hkey (Forall_nil_2 _))).
Defined.

(** C6: after the inventory is built from [N] resources with [M] distinct
    (type, id) pairs, the look-up of each of these pairs returns the
    resources with this pair in the order of the input, a non-empty list;
    the lengths of the [M] lists add up to [N]; the look-up of a pair that no
    resource has returns the empty list, and is not an error. *)
Theorem Inventory_lookup_by_type_id
    (key : HazardResource.t -> str) (hazard_resources : list HazardResource.t) :
  let inventory := Inventory.init key hazard_resources in
  let pairs := remove_dups (Inventory.type_id <$> hazard_resources) in
  NoDup pairs
  /\ (forall p, p ∈ pairs <->
                exists r, r ∈ hazard_resources /\ Inventory.type_id r = p)
  /\ (forall p,
        Inventory.lookup_by_type_id inventory p
        = filter (fun r => Inventory.type_id r = p) hazard_resources)
  /\ (forall p, p ∈ pairs -> Inventory.lookup_by_type_id inventory p <> [])
  /\ sum_list_with (fun p => length (Inventory.lookup_by_type_id inventory p)) pairs
     = length hazard_resources
  /\ (forall p,
        (forall r, r ∈ hazard_resources -> Inventory.type_id r <> p) ->
        Inventory.lookup_by_type_id inventory p = []
        /\ Inventory.resources_by_type_id inventory !! p = None).
Proof.
  intros inventory pairs.
  assert (Hpairs : forall p, p ∈ pairs <->
                             exists r, r ∈ hazard_resources /\ Inventory.type_id r = p).
  { intros p. unfold pairs. rewrite elem_of_remove_dups, list_elem_of_fmap.
    split; intros (r & H1 & H2); exists r; done. }
  split; [apply NoDup_remove_dups|]. split; [exact Hpairs|].
  split; [apply lookup_by_type_id_filter|]. split; [|split].
  - intros p Hp. apply Hpairs in Hp as (r & Hr & Hrp).
    unfold inventory. rewrite lookup_by_type_id_filter. intros Hnil.
    assert (Hin : r ∈ filter (fun r => Inventory.type_id r = p) hazard_resources)
      by (apply list_elem_of_filter; done).
    rewrite Hnil in Hin. inversion Hin.
  - rewrite <- (sum_length_filter Inventory.type_id pairs hazard_resources).
    + apply sum_list_with_pointwise. intros p. unfold inventory.
      rewrite lookup_by_type_id_filter. reflexivity.
    + apply NoDup_remove_dups.
    + intros r Hr. apply Hpairs. exists r. done.
  - intros p Hp.
    assert (Hnil : filter (fun r => Inventory.type_id r = p) hazard_resources = []).
    { clear -Hp. induction hazard_resources as [|r l IH]; [reflexivity|].
      rewrite filter_cons_False by (apply Hp; left).
      apply IH. intros r' Hr'. apply Hp. right. exact Hr'. }
    unfold inventory.
    rewrite lookup_by_type_id_filter, resources_by_type_id_lookup, Hnil. done.
Qed.

Lemma Inventory_lookup_by_type_id_witness :
  let hazard_resources :=
    [wri_baseline; no_map_resource; wri_baseline_tampered] in
  let inventory := Inventory.init HazardResource.key hazard_resources in
  Inventory.type_id wri_baseline
    ∈ remove_dups (Inventory.type_id <$> hazard_resources)
  /\ Inventory.lookup_by_type_id inventory (Inventory.type_id wri_baseline) <> []
  /\ (forall r, r ∈ hazard_resources -> Inventory.type_id r <> (u "Wind", u "x"))
  /\ Inventory.lookup_by_type_id inventory (u "Wind", u "x") = [].
Proof.
  intros hazard_resources inventory.
  pose proof (Inventory_lookup_by_type_id HazardResource.key hazard_resources)
    as (_ & _ & _ & Hsome & _ & Hmiss).
  assert (Hin : Inventory.type_id wri_baseline
                  ∈ remove_dups (Inventory.type_id <$> hazard_resources)).
  { apply elem_of_remove_dups.
    apply (list_elem_of_fmap_2 Inventory.type_id hazard_resources wri_baseline).
    apply list_elem_of_here. }
  assert (Hnone : forall r, r ∈ hazard_resources ->
                            Inventory.type_id r <> (u "Wind", u "x")).
  { intros r Hr Heq. apply (f_equal fst) in Heq.
    apply elem_of_cons in Hr as [->|Hr]; [vm_compute in Heq; discriminate Heq|].
    apply elem_of_cons in Hr as [->|Hr]; [vm_compute in Heq; discriminate Heq|].
    apply list_elem_of_singleton in Hr as ->. vm_compute in Heq. discriminate Heq. }
  split; [exact Hin|]. split; [exact (Hsome _ Hin)|].
  split; [exact Hnone|]. exact (proj1 (Hmiss _ Hnone)).
Defined.

(** * Further properties *)

(** ** [base36encode] over any alphabet *)

Section any_alphabet.

Variable alphabet : str.
Hypothesis two_symbols : 2 <= len alphabet.

Lemma getitem_glyph (d : Z) :
  0 <= d < len alphabet -> getitem alphabet d = Ok (glyph alphabet d).
Proof. intros Hd. apply getitem_nth. exact Hd. Qed.

Lemma leading_nonzero_lower_bound_in (ds : list Z) :
  Forall (fun d => 0 <= d < len alphabet) ds -> ds <> [] -> leading_nonzero ds ->
  len alphabet ^ (len ds - 1) <= positional_value (len alphabet) ds.
Proof.
  intros Hds Hne Hlead. destruct ds as [|d rest]; [done|].
  inversion Hds as [|? ? Hd Hrest]; subst. cbn [positional_value].
  rewrite len_cons. replace (Z.succ (len rest) - 1) with (len rest) by lia.
  pose proof (positional_value_nonneg (len alphabet) rest ltac:(lia) Hrest) as Hv.
  simpl in Hlead.
  assert (0 < len alphabet ^ len rest)
    by (apply Z.pow_pos_nonneg; [lia|apply len_nonneg]).
  nia.
Qed.

Lemma base36encode_while_digits_in (ds : list Z) :
  Forall (fun d => 0 <= d < len alphabet) ds -> leading_nonzero ds ->
  forall (fuel : nat) (base36 : str),
    (length ds <= fuel)%nat ->
    base36encode_while fuel alphabet (positional_value (len alphabet) ds) base36
    = Ok ((glyph alphabet <$> ds) ++ base36).
Proof.
  induction ds as [|d ds' IH] using rev_ind; intros Hds Hlead fuel base36 Hfuel.
  - destruct fuel; reflexivity.
  - apply Forall_app in Hds as [Hds' Hd].
    inversion Hd as [|? ? Hd0 _]; subst.
    rewrite length_app in Hfuel. simpl in Hfuel.
    destruct fuel as [|fuel]; [lia|].
    rewrite positional_value_snoc.
    set (v := positional_value (len alphabet) ds') in *.
    assert (Hv : 0 <= v)
      by (apply (positional_value_nonneg (len alphabet) ds'); [lia|done]).
    assert (Hnz : v * len alphabet + d <> 0).
    { destruct ds' as [|d0 r]; [simpl in *; lia|].
      pose proof (leading_nonzero_lower_bound_in (d0 :: r) Hds' ltac:(done) Hlead) as Hlow.
      assert (0 < len alphabet ^ (len (d0 :: r) - 1)).
      { apply Z.pow_pos_nonneg; [lia|]. rewrite len_cons. pose proof (len_nonneg r). lia. }
      fold v in Hlow. nia. }
    cbn [base36encode_while].
    destruct (v * len alphabet + d =? 0) eqn:E; [lia|].
    destruct (len alphabet =? 0) eqn:E0; [lia|].
    replace ((v * len alphabet + d) mod len alphabet) with d
      by (rewrite Z.add_comm, Z.mod_add by lia; symmetry; apply Z.mod_small; lia).
    replace ((v * len alphabet + d) / len alphabet) with v
      by (rewrite Z.add_comm, Z.div_add by lia; rewrite Z.div_small by lia; lia).
    rewrite getitem_glyph by done. cbn [bind].
    unfold v. rewrite IH; [|done| |lia].
    + rewrite fmap_app. simpl. rewrite <- app_assoc. reflexivity.
    + destruct ds'; [done|]. simpl in *. done.
Qed.

Lemma canonical_in_leading_nonzero (ds : list Z) :
  canonical_in (len alphabet) ds -> positional_value (len alphabet) ds <> 0 ->
  leading_nonzero ds.
Proof.
  intros (_ & _ & Hhd) Hv. destruct ds as [|d rest]; [done|].
  simpl in Hhd. simpl. intros ->. specialize (Hhd eq_refl).
  injection Hhd as ->. apply Hv. reflexivity.
Qed.

Lemma canonical_in_exists (n : Z) :
  0 <= n ->
  exists ds, canonical_in (len alphabet) ds /\ positional_value (len alphabet) ds = n.
Proof.
  revert n.
  apply (Zlt_0_ind (fun n => exists ds, canonical_in (len alphabet) ds
                                        /\ positional_value (len alphabet) ds = n)).
  intros n IH Hn. destruct (Z_lt_dec n (len alphabet)) as [Hsmall|Hbig].
  - exists [n]. split.
    + split; [repeat constructor; lia|]. split; [done|]. simpl. intros ->. done.
    + cbn [positional_value]. change (len (@nil Z)) with 0.
      rewrite Z.pow_0_r. lia.
  - destruct (IH (n / len alphabet)) as (ds & Hcan & Hv).
    { split; [apply Z.div_pos; lia|apply Z.div_lt; lia]. }
    assert (Hq : 1 <= n / len alphabet) by (apply Z.div_le_lower_bound; lia).
    pose proof (canonical_in_leading_nonzero ds Hcan ltac:(lia)) as Hlead.
    destruct Hcan as (Hds & Hne & _).
    exists (ds ++ [n mod len alphabet]). split.
    + split; [|split].
      * apply Forall_app. split; [done|].
        repeat constructor; apply Z.mod_pos_bound; lia.
      * destruct ds; done.
      * destruct ds as [|d r]; [done|]. simpl in *. done.
    + rewrite positional_value_snoc, Hv.
      pose proof (Z.div_mod n (len alphabet) ltac:(lia)). lia.
Qed.

Lemma canonical_in_nonneg (ds : list Z) :
  canonical_in (len alphabet) ds -> 0 <= positional_value (len alphabet) ds.
Proof.
  intros (Hds & _). apply (positional_value_nonneg (len alphabet) ds); [lia|done].
Qed.

Lemma canonical_in_length_fuel (ds : list Z) :
  canonical_in (len alphabet) ds -> positional_value (len alphabet) ds <> 0 ->
  (length ds <= base36encode_fuel (positional_value (len alphabet) ds))%nat.
Proof.
  intros Hcan Hnz.
  pose proof (canonical_in_leading_nonzero ds Hcan Hnz) as Hlead.
  pose proof (canonical_in_nonneg ds Hcan) as Hv.
  destruct Hcan as (Hds & Hne & _).
  pose proof (leading_nonzero_lower_bound_in ds Hds Hne Hlead) as Hlow.
  assert (Hlen : 1 <= len ds).
  { destruct ds; [done|]. rewrite len_cons. pose proof (len_nonneg ds). lia. }
  assert (H2 : 2 ^ (len ds - 1) <= len alphabet ^ (len ds - 1))
    by (apply Z.pow_le_mono_l; lia).
  assert (Hlog : len ds - 1 <= Z.log2 (positional_value (len alphabet) ds))
    by (apply Z.log2_le_pow2; lia).
  unfold base36encode_fuel, len in *. lia.
Qed.

Lemma canonical_in_small (ds : list Z) :
  canonical_in (len alphabet) ds ->
  positional_value (len alphabet) ds < len alphabet ->
  ds = [positional_value (len alphabet) ds].
Proof.
  intros Hcan Hsmall.
  assert (Hone : forall d rest, ds = d :: rest -> d <> 0 -> rest = []).
  { intros d rest -> Hd. destruct Hcan as (Hds & Hne & _).
    pose proof (leading_nonzero_lower_bound_in (d :: rest) Hds Hne Hd) as Hlow.
    destruct rest as [|d' rest]; [reflexivity|exfalso].
    rewrite !len_cons in Hlow.
    replace (Z.succ (Z.succ (len rest)) - 1) with (Z.succ (len rest)) in Hlow by lia.
    rewrite Z.pow_succ_r in Hlow by apply len_nonneg.
    assert (0 < len alphabet ^ len rest)
      by (apply Z.pow_pos_nonneg; [lia|apply len_nonneg]).
    nia. }
  destruct ds as [|d rest]; [destruct Hcan as (_ & Hne & _); done|].
  destruct (Z.eq_dec d 0) as [->|Hd].
  - destruct Hcan as (_ & _ & Hhd). rewrite (Hhd eq_refl). reflexivity.
  - rewrite (Hone d rest eq_refl Hd). cbn [positional_value].
    change (len (@nil Z)) with 0. rewrite Z.pow_0_r. f_equal. lia.
Qed.

Lemma base36encode_of_canonical_in (ds : list Z) :
  canonical_in (len alphabet) ds ->
  base36encode (PyInt (positional_value (len alphabet) ds)) alphabet
  = Ok (glyph alphabet <$> ds).
Proof.
  intros Hcan. pose proof (canonical_in_nonneg ds Hcan) as Hv.
  unfold base36encode.
  destruct (positional_value (len alphabet) ds <? 0) eqn:Hneg; [lia|].
  destruct (positional_value (len alphabet) ds <? len alphabet) eqn:Hsmall.
  - replace (0 <=? positional_value (len alphabet) ds) with true by lia. cbn [andb].
    rewrite getitem_glyph by lia. cbn [bind].
    rewrite (canonical_in_small ds Hcan) at 2 by lia. reflexivity.
  - rewrite andb_false_r.
    assert (Hnz : positional_value (len alphabet) ds <> 0) by lia.
    rewrite base36encode_while_digits_in.
    + rewrite app_nil_r. reflexivity.
    + apply Hcan.
    + apply canonical_in_leading_nonzero; done.
    + apply canonical_in_length_fuel; done.
Qed.

Lemma base36encode_digits_in (n : Z) (s : str) :
  0 <= n -> base36encode (PyInt n) alphabet = Ok s ->
  exists ds, canonical_in (len alphabet) ds
             /\ positional_value (len alphabet) ds = n
             /\ s = glyph alphabet <$> ds.
Proof.
  intros Hn Hs. destruct (canonical_in_exists n Hn) as (ds & Hcan & Hv).
  exists ds. split; [done|]. split; [done|].
  pose proof (base36encode_of_canonical_in ds Hcan) as Henc.
  rewrite Hv, Hs in Henc. congruence.
Qed.

End any_alphabet.

Lemma glyph_elem_of (alphabet : str) (d : Z) :
  0 <= d < len alphabet -> glyph alphabet d ∈ alphabet.
Proof.
  intros Hd. unfold glyph. apply list_elem_of_lookup. exists (Z.to_nat d).
  destruct (alphabet !! Z.to_nat d) eqn:Hl.
  - f_equal. symmetry. apply nth_lookup_Some with (d := 0) in Hl. exact Hl.
  - apply lookup_ge_None in Hl. unfold len in Hd. lia.
Qed.

Lemma glyph_lookup (alphabet : str) (d : Z) :
  0 <= d < len alphabet -> alphabet !! Z.to_nat d = Some (glyph alphabet d).
Proof.
  intros Hd. destruct (alphabet !! Z.to_nat d) eqn:Hl.
  - f_equal. symmetry. apply nth_lookup_Some with (d := 0) in Hl. exact Hl.
  - apply lookup_ge_None in Hl. unfold len in Hd. lia.
Qed.

Lemma glyph_digits_inj (alphabet : str) (ds1 ds2 : list Z) :
  NoDup alphabet ->
  Forall (fun d => 0 <= d < len alphabet) ds1 ->
  Forall (fun d => 0 <= d < len alphabet) ds2 ->
  glyph alphabet <$> ds1 = glyph alphabet <$> ds2 -> ds1 = ds2.
Proof.
  intros Hnd H1. revert ds2.
  induction H1 as [|d1 r1 Hd1 _ IH]; intros ds2 H2 Heq.
  - destruct ds2; [reflexivity|discriminate].
  - destruct H2 as [|d2 r2 Hd2 H2]; [discriminate|].
    rewrite !fmap_cons in Heq. injection Heq as Hg Hrest.
    rewrite (IH r2 H2 Hrest). f_equal.
    pose proof (glyph_lookup alphabet d1 Hd1) as L1.
    pose proof (glyph_lookup alphabet d2 Hd2) as L2.
    rewrite Hg in L1.
    pose proof (NoDup_lookup alphabet _ _ _ Hnd L1 L2). lia.
Qed.

Lemma len_fmap {A B} (f : A -> B) (l : list A) : len (f <$> l) = len l.
Proof. unfold len. rewrite length_fmap. reflexivity. Qed.

(** X1: with an alphabet of two symbols or more, [base36encode] writes any
    natural number in base [len(alphabet)]: the result spells, with the
    characters of the alphabet, the digits of the number, most significant
    first and without a leading zero. *)
Theorem base36encode_any_alphabet (alphabet : str) (number : Z) :
  2 <= len alphabet -> 0 <= number ->
  exists ds,
    base36encode (PyInt number) alphabet = Ok (glyph alphabet <$> ds)
    /\ canonical_in (len alphabet) ds
    /\ positional_value (len alphabet) ds = number
    /\ Forall (fun c => c ∈ alphabet) (glyph alphabet <$> ds).
Proof.
  intros Hb Hn. destruct (canonical_in_exists alphabet Hb number Hn) as (ds & Hcan & Hv).
  exists ds. split; [|split; [done|split; [done|]]].
  - rewrite <- Hv. apply base36encode_of_canonical_in; done.
  - apply Forall_fmap. destruct Hcan as (Hds & _).
    eapply Forall_impl; [exact Hds|]. intros d Hd. apply glyph_elem_of. exact Hd.
Qed.

Lemma base36encode_any_alphabet_witness :
  exists ds,
    base36encode (PyInt 5) (u "01") = Ok (glyph (u "01") <$> ds)
    /\ positional_value 2 ds = 5.
Proof.
  destruct (base36encode_any_alphabet (u "01") 5) as (ds & Henc & _ & Hv & _);
    [vm_compute; discriminate|lia|].
  exists ds. split; [exact Henc|exact Hv].
Defined.

(** X2: the ways [base36encode] fails.  Whatever the alphabet, an object
    that is not an [int] raises [TypeError("number must be an integer")] and
    a negative number raises [TypeError("number must be positive")]; zero is
    accepted.  With the empty alphabet zero gives the empty string and every
    positive number raises [ZeroDivisionError].  With two symbols or more,
    every natural number gives a non-empty string. *)
Theorem base36encode_failures (alphabet : str) :
  (forall number, (forall n, number <> PyInt n) ->
                  base36encode number alphabet
                  = Raise (TypeError (u "number must be an integer")))
  /\ (forall n, n < 0 ->
                base36encode (PyInt n) alphabet
                = Raise (TypeError (u "number must be positive")))
  /\ base36encode (PyInt 0) [] = Ok []
  /\ (forall n, 0 < n -> base36encode (PyInt n) [] = Raise ZeroDivisionError)
  /\ (2 <= len alphabet ->
      forall n, 0 <= n ->
                exists s, base36encode (PyInt n) alphabet = Ok s /\ s <> []).
Proof.
  split; [|split; [|split; [|split]]].
  - intros number Hnot. destruct number as [n| | |]; try reflexivity.
    exfalso. apply (Hnot n). reflexivity.
  - intros n Hn. unfold base36encode.
    destruct (n <? 0) eqn:E; [reflexivity|lia].
  - reflexivity.
  - intros n Hn. unfold base36encode, base36encode_fuel.
    change (len (@nil Z)) with 0.
    destruct (n <? 0) eqn:E; [lia|]. rewrite andb_false_r.
    cbn [base36encode_while]. destruct (n =? 0) eqn:E0; [lia|].
    reflexivity.
  - intros Hb n Hn.
    destruct (canonical_in_exists alphabet Hb n Hn) as (ds & Hcan & Hv).
    exists (glyph alphabet <$> ds). split.
    + rewrite <- Hv. apply base36encode_of_canonical_in; done.
    + destruct Hcan as (_ & Hne & _). destruct ds; done.
Qed.

Lemma base36encode_failures_witness :
  base36encode PyNone default_alphabet
  = Raise (TypeError (u "number must be an integer"))
  /\ base36encode (PyInt (-1)) default_alphabet
     = Raise (TypeError (u "number must be positive"))
  /\ base36encode (PyInt 7) [] = Raise ZeroDivisionError
  /\ exists s, base36encode (PyInt 36) default_alphabet = Ok s /\ s <> [].
Proof.
  pose proof (base36encode_failures default_alphabet) as (H1 & H2 & _ & _ & H5).
  pose proof (base36encode_failures []) as (_ & _ & _ & H4 & _).
  split; [apply (H1 PyNone); intros n; discriminate|].
  split; [apply (H2 (-1)); lia|].
  split; [apply (H4 7); lia|].
  apply H5; [vm_compute; discriminate|lia].
Defined.

(** X3: with an alphabet of one character and a number of 1 or more, the
    loop of [base36encode] divides by 1, so the number never changes and the
    loop never ends: no number of iterations finishes it. *)
Theorem base36encode_one_symbol_never_ends (c number : Z) (fuel : nat) (base36 : str) :
  1 <= number ->
  base36encode_while fuel [c] number base36 = Unmodelled.
Proof.
  intros Hn. revert base36. induction fuel as [|fuel IH]; intros base36;
    cbn [base36encode_while]; destruct (number =? 0) eqn:E; try lia; [reflexivity|].
  change (len [c]) with 1. change (1 =? 0) with false. cbv iota.
  rewrite Z.mod_1_r, Z.div_1_r. change (getitem [c] 0) with (Ok c).
  cbn [bind]. apply IH.
Qed.

Lemma base36encode_one_symbol_never_ends_witness :
  (1 <= 3) /\ base36encode_while 1000 (u "x") 3 [] = Unmodelled.
Proof.
  split; [lia|].
  apply (base36encode_one_symbol_never_ends 120 3 1000 []). lia.
Defined.

(** X4: over an alphabet of two or more distinct characters, [base36encode]
    never gives two natural numbers the same string. *)
Theorem base36encode_injective (alphabet : str) (n m : Z) (s : str) :
  2 <= len alphabet -> NoDup alphabet -> 0 <= n -> 0 <= m ->
  base36encode (PyInt n) alphabet = Ok s ->
  base36encode (PyInt m) alphabet = Ok s ->
  n = m.
Proof.
  intros Hb Hnd Hn Hm Hsn Hsm.
  destruct (base36encode_digits_in alphabet Hb n s Hn Hsn) as (dn & (Hdn & _) & <- & Heqn).
  destruct (base36encode_digits_in alphabet Hb m s Hm Hsm) as (dm & (Hdm & _) & <- & Heqm).
  rewrite (glyph_digits_inj alphabet dn dm Hnd Hdn Hdm); [reflexivity|congruence].
Qed.

Lemma NoDup_default_alphabet : NoDup default_alphabet.
Proof. apply (bool_decide_unpack _). vm_compute. exact I. Qed.

Lemma base36encode_injective_witness :
  base36encode (PyInt 1295) default_alphabet = Ok (u "zz")
  /\ (1295 = 1295).
Proof.
  assert (H : base36encode (PyInt 1295) default_alphabet = Ok (u "zz"))
    by (vm_compute; reflexivity).
  split; [exact H|].
  apply (base36encode_injective default_alphabet 1295 1295 (u "zz"));
    [vm_compute; discriminate|exact NoDup_default_alphabet|lia|lia|exact H|exact H].
Defined.

Lemma base36encode_digit_count (alphabet : str) (n : Z) (s : str) :
  2 <= len alphabet -> 0 < n ->
  base36encode (PyInt n) alphabet = Ok s ->
  len alphabet ^ (len s - 1) <= n < len alphabet ^ len s.
Proof.
  intros Hb Hn Hs.
  destruct (base36encode_digits_in alphabet Hb n s ltac:(lia) Hs)
    as (ds & Hcan & Hv & ->).
  rewrite len_fmap. subst n. split.
  - destruct Hcan as (Hds & Hne & Hhd).
    apply leading_nonzero_lower_bound_in; [done..|].
    apply (canonical_in_leading_nonzero alphabet); [split; done|lia].
  - destruct Hcan as (Hds & _).
    apply (positional_value_nonneg (len alphabet) ds); [lia|done].
Qed.

(** X5: the number of characters [base36encode] returns for a positive
    number [n] over an alphabet of [b >= 2] symbols is the number of its
    digits in base [b]: [b ^ (len - 1) <= n < b ^ len]. *)
Theorem base36encode_length (alphabet : str) (n : Z) (s : str) :
  2 <= len alphabet -> 0 < n ->
  base36encode (PyInt n) alphabet = Ok s ->
  len alphabet ^ (len s - 1) <= n < len alphabet ^ len s.
Proof. apply base36encode_digit_count. Qed.

Lemma base36encode_length_witness :
  base36encode (PyInt 1296) default_alphabet = Ok (u "100")
  /\ 36 ^ (3 - 1) <= 1296 < 36 ^ 3.
Proof.
  assert (H : base36encode (PyInt 1296) default_alphabet = Ok (u "100"))
    by (vm_compute; reflexivity).
  split; [exact H|].
  apply (base36encode_length default_alphabet 1296 (u "100"));
    [vm_compute; discriminate|lia|exact H].
Defined.

(** ** The length of a key *)

Lemma pow_160_31 : 2 ^ 160 <= 36 ^ 31.
Proof. vm_compute. discriminate. Qed.

Lemma base36encode_zero : base36encode (PyInt 0) default_alphabet = Ok [48].
Proof. vm_compute. reflexivity. Qed.

Lemma base36encode_key_length (h : Z) (enc : str) :
  0 <= h < 2 ^ 160 ->
  base36encode (PyInt h) default_alphabet = Ok enc ->
  (1 <= length enc <= 31)%nat
  /\ ((6 <= length enc)%nat <-> 36 ^ 5 <= h).
Proof.
  intros Hrange Henc. destruct (Z.eq_dec h 0) as [->|Hnz].
  - rewrite base36encode_zero in Henc. injection Henc as <-.
    change (length [48]) with 1%nat. split; [lia|]. split; [lia|].
    intros H. exfalso. assert (0 < 36 ^ 5) by (apply Z.pow_pos_nonneg; lia). lia.
  - pose proof (base36encode_digit_count default_alphabet h enc
                  ltac:(rewrite len_default_alphabet; lia) ltac:(lia) Henc) as [Hlow Hhigh].
    rewrite len_default_alphabet in Hlow, Hhigh.
    assert (Hpos : 1 <= len enc).
    { destruct (Z_lt_dec (len enc) 1) as [Hlt|]; [|lia]. exfalso.
      assert (Hz : len enc = 0) by (pose proof (len_nonneg enc); lia).
      rewrite Hz, Z.pow_0_r in Hhigh. lia. }
    assert (Hmax : len enc <= 31).
    { destruct (Z_le_dec (len enc) 31) as [|Hgt]; [done|exfalso].
      assert (36 ^ 31 <= 36 ^ (len enc - 1)) by (apply Z.pow_le_mono_r; lia).
      pose proof pow_160_31. lia. }
    split; [unfold len in Hpos, Hmax; lia|]. split.
    + intros Hlen.
      assert (36 ^ 5 <= 36 ^ (len enc - 1))
        by (apply Z.pow_le_mono_r; unfold len; lia).
      lia.
    + intros Hh. destruct (le_lt_dec 6 (length enc)) as [|Hlt]; [done|exfalso].
      assert (36 ^ len enc <= 36 ^ 5)
        by (apply Z.pow_le_mono_r; unfold len; lia).
      lia.
Qed.

Lemma alphanumeric_of_bytes (text : str) (data : bytes) :
  encode_utf8 text = Ok data ->
  alphanumeric text
  = base36encode (PyInt (int_from_bytes_big (hashlib.sha1_digest data)))
      default_alphabet.
Proof. intros Hdata. unfold alphanumeric. rewrite Hdata. reflexivity. Qed.

(** X6: the string [alphanumeric] returns has between 1 and 31 characters,
    and the key cut from it, [alphanumeric(text)[0:6]], has 6 characters
    exactly when the digest, read as an integer, is at least [36 ^ 5]; below
    that the key is shorter and is the whole encoding. *)
Theorem alphanumeric_length (text : str) (data : bytes) (enc : str) :
  encode_utf8 text = Ok data ->
  alphanumeric text = Ok enc ->
  (1 <= length enc <= 31)%nat
  /\ map_id_of text = Ok (slice0 6 enc)
  /\ (length (slice0 6 enc) = 6%nat
      <-> 36 ^ 5 <= int_from_bytes_big (hashlib.sha1_digest data))
  /\ (int_from_bytes_big (hashlib.sha1_digest data) < 36 ^ 5 ->
      slice0 6 enc = enc).
Proof.
  intros Hdata Henc.
  assert (Hid : map_id_of text = Ok (slice0 6 enc))
    by (unfold map_id_of; rewrite Henc; reflexivity).
  rewrite (alphanumeric_of_bytes text data Hdata) in Henc.
  destruct (base36encode_key_length
              (int_from_bytes_big (hashlib.sha1_digest data)) enc
              (hash_int_range data) Henc)
    as [Hlen Hiff].
  split; [exact Hlen|]. split; [exact Hid|].
  clear Henc Hid Hdata.
  generalize dependent (int_from_bytes_big (hashlib.sha1_digest data)).
  intros h Hiff.
  unfold slice0. rewrite length_take. split.
  - rewrite <- Hiff. lia.
  - intros Hsmall. apply take_ge.
    destruct (le_lt_dec 6 (length enc)) as [Hge|]; [|lia].
    apply Hiff in Hge. lia.
Qed.

Lemma alphanumeric_length_witness :
  exists enc,
    alphanumeric (u "abc") = Ok enc
    /\ (1 <= length enc <= 31)%nat
    /\ map_id_of (u "abc") = Ok (slice0 6 enc).
Proof.
  destruct (alphanumeric (u "abc")) as [enc| |] eqn:Henc;
    [|vm_compute in Henc; discriminate Henc..].
  exists enc. split; [reflexivity|].
  pose proof (alphanumeric_length (u "abc") (u "abc") enc eq_refl Henc)
    as (Hlen & Hid & _).
  split; [exact Hlen|exact Hid].
Defined.

(** ** More on period resolution *)

Lemma zip_same_map_id (periods : list Period.t) :
  Forall same_map_id (zip periods periods).
Proof. induction periods as [|p l IH]; simpl; constructor; [reflexivity|exact IH]. Qed.

Lemma scenario_body_again (model model' : HazardResource.t)
    (scenario scenario' : Scenario.t) :
  HazardResource.map model = HazardResource.map model' ->
  HazardResource.id model = HazardResource.id model' ->
  scenario_body model scenario = Ok scenario' ->
  scenario_body model' scenario' = Ok scenario'.
Proof.
  intros Hmap Hid Hbody.
  apply scenario_body_Ok in Hbody as (periods & Hps & _ & ->).
  apply scenario_body_Ok. exists periods. simpl. split; [|split; [|reflexivity]].
  - rewrite <- Hps. symmetry. apply years_loop_ext; done.
  - intros tps Htps. injection Htps as <-. apply zip_same_map_id.
Qed.

Lemma resolved_again (model resource : HazardResource.t) :
  resolved model resource -> resolved resource resource.
Proof.
  intros (ss & Hss & ->). exists ss. split; [|reflexivity]. simpl.
  apply scenarios_loop_Ok in Hss. apply scenarios_loop_Ok.
  apply Forall_Forall2_diag.
  eapply Forall2_Forall_r; [exact Hss|].
  apply Forall_forall. intros s _ s' Hbody.
  apply (scenario_body_again model _ s s'); [reflexivity|reflexivity|exact Hbody].
Qed.

(** X7: resolution is idempotent.  When [to_resources] returns a list, running
    its loop over this list again succeeds and returns the same list: the
    periods it wrote are periods it accepts. *)
Theorem to_resources_idempotent
    (expand : HazardResource.t -> list HazardResource.t)
    (models resources : list HazardResource.t) :
  to_resources expand models = Ok resources ->
  models_loop resources = Ok resources.
Proof.
  unfold to_resources. intros Hok. apply models_loop_Ok in Hok.
  apply models_loop_Ok. apply Forall_Forall2_diag.
  eapply Forall2_Forall_r; [exact Hok|].
  apply Forall_forall. intros m _ r Hr. exact (resolved_again m r Hr).
Qed.

Lemma to_resources_idempotent_witness :
  to_resources (fun m => [m]) [no_map_resource] = Ok [no_map_resource_resolved]
  /\ models_loop [no_map_resource_resolved] = Ok [no_map_resource_resolved].
Proof.
  split; [exact no_map_resource_resolves|].
  exact (to_resources_idempotent (fun m => [m]) [no_map_resource]
           [no_map_resource_resolved] no_map_resource_resolves).
Defined.

Lemma check_loop_map_ids (periods tps tps' : list Period.t) :
  Period.map_id <$> tps = Period.map_id <$> tps' ->
  check_loop (zip periods tps) = check_loop (zip periods tps').
Proof.
  revert tps tps'. induction periods as [|p l IH]; intros tps tps' Heq; [reflexivity|].
  destruct tps as [|tp tps], tps' as [|tp' tps']; try discriminate; [reflexivity|].
  rewrite !fmap_cons in Heq. injection Heq as Hid Hrest. simpl.
  unfold validation_error. rewrite Hid, (IH tps tps' Hrest). reflexivity.
Qed.

(** X8: the check looks at the recorded keys only.  Two lists of recorded
    periods with the same keys in the same order give a scenario the same
    outcome, whatever years they carry: a recorded period with a wrong year
    is never reported. *)
Theorem reconciliation_ignores_recorded_years
    (model : HazardResource.t) (scenario : Scenario.t)
    (tps tps' : list Period.t) :
  Period.map_id <$> tps = Period.map_id <$> tps' ->
  scenario_body model
    (Scenario.Build (Scenario.id scenario) (Scenario.years scenario) (Some tps))
  = scenario_body model
      (Scenario.Build (Scenario.id scenario) (Scenario.years scenario) (Some tps')).
Proof.
  intros Heq. unfold scenario_body. simpl.
  rewrite (years_loop_ext model model
             (Scenario.Build (Scenario.id scenario) (Scenario.years scenario) (Some tps))
             (Scenario.Build (Scenario.id scenario) (Scenario.years scenario) (Some tps')))
    by reflexivity.
  destruct (years_loop model _ (Scenario.years scenario) []) as [periods| |];
    [|reflexivity..].
  cbn [bind]. rewrite (check_loop_map_ids periods tps tps' Heq). reflexivity.
Qed.

Lemma reconciliation_ignores_recorded_years_witness :
  scenario_body wri_baseline
    (Scenario.Build (u "historical") [1980] (Some [Period.Build 1980 (u "gw4vgq")]))
  = scenario_body wri_baseline
      (Scenario.Build (u "historical") [1980] (Some [Period.Build 2099 (u "gw4vgq")])).
Proof.
  exact (reconciliation_ignores_recorded_years wri_baseline
           (Scenario.Build (u "historical") [1980] None)
           [Period.Build 1980 (u "gw4vgq")] [Period.Build 2099 (u "gw4vgq")]
           eq_refl).
Defined.

Lemma map_id_of_Ok (array_name k : str) :
  map_id_of array_name = Ok k ->
  k <> [] /\ (length k <= 6)%nat /\ Forall alnum k.
Proof.
  unfold map_id_of. intros Hk.
  destruct (alphanumeric_outcome array_name) as [(enc & Henc & Hne & Hal)|Herr].
  - rewrite Henc in Hk. cbn [bind] in Hk.
    assert (Hk' : k = take 6 enc) by (unfold slice0 in Hk; congruence).
    subst k. clear Hk.
    split; [destruct enc; [done|discriminate]|].
    split; [rewrite length_take; lia|apply Forall_take; exact Hal].
  - rewrite Herr in Hk. discriminate Hk.
Qed.

Lemma period_map_id_Ok (model : HazardResource.t) (scenario : Scenario.t)
    (year : Z) (k : str) :
  period_map_id model scenario year = Ok k ->
  (length k <= 6)%nat /\ Forall alnum k /\ (k <> [] <-> has_template model).
Proof.
  unfold period_map_id, has_template. intros Hk.
  destruct (HazardResource.map model) as [map|].
  - destruct (truthy (MapInfo.array_name map)) eqn:Ht.
    + inv_bind Hk. apply map_id_of_Ok in Hk as (Hne & Hlen & Hal).
      split; [done|]. split; [done|]. split; [|done]. intros _. exists map. done.
    + injection Hk as <-. split; [simpl; lia|]. split; [constructor|].
      split; [done|]. intros (map' & Hmap & Ht'). injection Hmap as <-. congruence.
  - injection Hk as <-. split; [simpl; lia|]. split; [constructor|].
    split; [done|]. intros (map' & Hmap & _). discriminate Hmap.
Qed.

(** X9: every key in the list [to_resources] returns is well formed: at most
    6 characters, all in [0-9a-z]; and it is non-empty exactly when the
    resource has a map specification with a non-empty array-name template. *)
Theorem to_resources_keys_well_formed
    (expand : HazardResource.t -> list HazardResource.t)
    (models resources : list HazardResource.t)
    (resource : HazardResource.t) (scenario : Scenario.t)
    (periods : list Period.t) (p : Period.t) :
  to_resources expand models = Ok resources ->
  resource ∈ resources ->
  scenario ∈ HazardResource.scenarios resource ->
  Scenario.periods scenario = Some periods ->
  p ∈ periods ->
  (length (Period.map_id p) <= 6)%nat
  /\ Forall alnum (Period.map_id p)
  /\ (Period.map_id p <> [] <-> has_template resource).
Proof.
  unfold to_resources. intros Hok Hres Hscenario Hperiods Hp.
  apply models_loop_Ok in Hok.
  destruct (Forall2_elem_of_r _ _ _ _ Hok Hres) as (model & _ & ss & Hss & ->).
  simpl in Hscenario. apply scenarios_loop_Ok in Hss.
  destruct (Forall2_elem_of_r _ _ _ _ Hss Hscenario) as (s & _ & Hbody).
  apply scenario_body_Ok in Hbody as (ps & Hps & _ & ->).
  simpl in Hperiods. injection Hperiods as <-.
  apply years_loop_Ok in Hps as (new & Hnew & Hfresh). simpl in Hnew. subst new.
  destruct (Forall2_elem_of_r _ _ _ _ Hfresh Hp) as (year & _ & _ & Hk).
  apply period_map_id_Ok in Hk. exact Hk.
Qed.

Lemma to_resources_keys_well_formed_witness :
  (length (Period.map_id (Period.Build 1980 (u "gw4vgq"))) <= 6)%nat
  /\ Forall alnum (Period.map_id (Period.Build 1980 (u "gw4vgq")))
  /\ (Period.map_id (Period.Build 1980 (u "gw4vgq")) <> []
      <-> has_template wri_baseline).
Proof.
  apply (to_resources_keys_well_formed (fun m => [m]) [wri_baseline] [wri_baseline]
           wri_baseline
           (Scenario.Build (u "historical") [1980]
              (Some [Period.Build 1980 (u "gw4vgq")]))
           [Period.Build 1980 (u "gw4vgq")] (Period.Build 1980 (u "gw4vgq"))
           wri_baseline_resolves).
  - apply list_elem_of_here.
  - apply list_elem_of_here.
  - reflexivity.
  - apply list_elem_of_here.
Defined.

Lemma str_format_plain (template : str) (kwargs : list (str * pyobj)) :
  Forall (fun c => c <> LBRACE /\ c <> RBRACE) template ->
  str_format template kwargs = Ok template.
Proof.
  unfold str_format. induction 1 as [|c rest [Hl Hr] _ IH]; [reflexivity|].
  cbn [str_format_from].
  destruct (c =? LBRACE) eqn:El; [lia|]. destruct (c =? RBRACE) eqn:Er; [lia|].
  rewrite IH. reflexivity.
Qed.

(** X10: a map template without braces has no field to fill in, so it is
    hashed as it stands: every year of every scenario of the resource gets
    the same key, [alphanumeric(template)[0:6]]. *)
Theorem plain_template_same_key
    (model : HazardResource.t) (map : MapInfo.t) (template : str)
    (scenario : Scenario.t) (year : Z) :
  HazardResource.map model = Some map ->
  MapInfo.array_name map = Some template ->
  template <> [] ->
  Forall (fun c => c <> LBRACE /\ c <> RBRACE) template ->
  period_map_id model scenario year = map_id_of template.
Proof.
  intros Hmap Htemplate Hne Hplain. unfold period_map_id.
  rewrite Hmap, Htemplate.
  destruct template as [|c rest]; [exfalso; apply Hne; reflexivity|].
  cbn [truthy default]. rewrite (str_format_plain (c :: rest) _ Hplain).
  reflexivity.
Qed.

Lemma plain_template_same_key_witness :
  period_map_id plain_template_resource
    (Scenario.Build (u "historical") [1980] None) 1980
  = map_id_of (u "inuncoast_historical_nosub_hist_0").
Proof.
  apply (plain_template_same_key plain_template_resource
           (MapInfo.Build None (Some (u "inuncoast_historical_nosub_hist_0")) None)
           (u "inuncoast_historical_nosub_hist_0")
           (Scenario.Build (u "historical") [1980] None) 1980 eq_refl eq_refl).
  - vm_compute. discriminate.
  - apply Forall_forall. intros c Hc. unfold LBRACE, RBRACE.
    assert (Hlow : c < 123).
    { revert c Hc. apply Forall_forall.
      change (u "inuncoast_historical_nosub_hist_0")
        with [105; 110; 117; 110; 99; 111; 97; 115; 116; 95; 104; 105; 115; 116;
              111; 114; 105; 99; 97; 108; 95; 110; 111; 115; 117; 98; 95; 104;
              105; 115; 116; 95; 48].
      repeat (apply Forall_cons_2; [lia|]). apply Forall_nil_2. }
    lia.
Defined.

(** ** More on the inventory *)

Lemma filter_unique {A K} `{EqDecision K} (f : A -> K) (l : list A) (r : A) :
  NoDup (f <$> l) -> r ∈ l -> filter (fun x => f x = f r) l = [r].
Proof.
  induction l as [|x l IH]; intros Hnd Hr; [inversion Hr|].
  rewrite fmap_cons in Hnd. apply NoDup_cons in Hnd as [Hx Hnd].
  apply elem_of_cons in Hr as [->|Hr].
  - rewrite filter_cons_True by reflexivity. f_equal.
    clear IH Hnd. induction l as [|y l IHl]; [reflexivity|].
    rewrite fmap_cons in Hx. apply not_elem_of_cons in Hx as [Hy Hx].
    rewrite filter_cons_False by (intros H; apply Hy; symmetry; exact H).
    apply IHl. exact Hx.
  - rewrite filter_cons_False; [apply IH; done|].
    intros Heq. apply Hx. rewrite Heq. apply list_elem_of_fmap_2. exact Hr.
Qed.

Lemma filter_none {A} (P : A -> Prop) `{forall x, Decision (P x)} (l : list A) :
  filter P l = [] <-> forall x, x ∈ l -> ~ P x.
Proof.
  split.
  - intros Hnil x Hx HP.
    assert (Hin : x ∈ filter P l) by (apply list_elem_of_filter; done).
    rewrite Hnil in Hin. inversion Hin.
  - intros Hall. induction l as [|x l IH]; [reflexivity|].
    rewrite filter_cons_False by (apply Hall; left).
    apply IH. intros y Hy. apply Hall. right. exact Hy.
Qed.

Section more_inventory_properties.

Variable key : HazardResource.t -> str.

Lemma resources_size_unique (rs : list HazardResource.t) :
  NoDup (key <$> rs) ->
  size (Inventory.resources (Inventory.init key rs)) = length rs.
Proof.
  induction rs as [|r rs IH] using rev_ind; intros Hnd; [reflexivity|].
  rewrite fmap_app in Hnd. apply NoDup_app in Hnd as (Hnd & Hfresh & _).
  rewrite init_snoc, resources_add, map_size_insert_None.
  - rewrite IH by exact Hnd. rewrite length_app. simpl. lia.
  - rewrite resources_lookup.
    replace (filter (fun x => key x = key r) rs) with (@nil HazardResource.t);
      [reflexivity|].
    symmetry. apply filter_none. intros x Hx Heq.
    apply (Hfresh (key x)); [apply list_elem_of_fmap_2; exact Hx|].
    rewrite Heq. simpl. left.
Qed.

Lemma resources_lookup_Some (rs : list HazardResource.t) (k : str)
    (r : HazardResource.t) :
  Inventory.resources (Inventory.init key rs) !! k = Some r ->
  r ∈ rs /\ key r = k.
Proof.
  rewrite resources_lookup. intros Hlast.
  apply last_Some_elem_of in Hlast.
  apply list_elem_of_filter in Hlast. destruct Hlast; done.
Qed.

Lemma resources_lookup_None (rs : list HazardResource.t) (k : str) :
  Inventory.resources (Inventory.init key rs) !! k = None <->
  forall r, r ∈ rs -> key r <> k.
Proof.
  rewrite resources_lookup, last_None. apply filter_none.
Qed.

End more_inventory_properties.

(** X11: when the composite keys of the resources are all different, as the
    docstring of [Inventory.__init__] expects, the composite-key table gives
    back every resource under its own key, and has as many entries as there
    are resources. *)
Theorem Inventory_unique_keys_round_trip
    (key : HazardResource.t -> str) (hazard_resources : list HazardResource.t) :
  NoDup (key <$> hazard_resources) ->
  (forall r, r ∈ hazard_resources ->
             Inventory.resources (Inventory.init key hazard_resources) !! key r
             = Some r)
  /\ size (Inventory.resources (Inventory.init key hazard_resources))
     = length hazard_resources.
Proof.
  intros Hnd. split; [|apply resources_size_unique; exact Hnd].
  intros r Hr. rewrite resources_lookup.
  rewrite (filter_unique key hazard_resources r Hnd Hr). reflexivity.
Qed.

Lemma Inventory_unique_keys_round_trip_witness :
  NoDup (HazardResource.key <$> [wri_baseline; no_map_resource])
  /\ Inventory.resources
       (Inventory.init HazardResource.key [wri_baseline; no_map_resource])
     !! HazardResource.key no_map_resource
     = Some no_map_resource.
Proof.
  assert (Hnd : NoDup (HazardResource.key <$> [wri_baseline; no_map_resource])).
  { apply (bool_decide_unpack _). vm_compute. exact I. }
  split; [exact Hnd|].
  apply (proj1 (Inventory_unique_keys_round_trip HazardResource.key
                  [wri_baseline; no_map_resource] Hnd) no_map_resource).
  apply list_elem_of_further. apply list_elem_of_here.
Defined.

(** X12: the two tables agree with the input and with each other.  What the
    composite-key table holds under a key is a resource of the input that
    has this key, and it is also listed under its (type, id) pair; a key the
    table does not hold is the key of no resource; and every resource of
    the input has its key in the table and is listed under its pair. *)
Theorem Inventory_tables_consistent
    (key : HazardResource.t -> str) (hazard_resources : list HazardResource.t) :
  let inventory := Inventory.init key hazard_resources in
  (forall k r,
      Inventory.resources inventory !! k = Some r ->
      r ∈ hazard_resources /\ key r = k
      /\ r ∈ Inventory.lookup_by_type_id inventory (Inventory.type_id r))
  /\ (forall k,
        Inventory.resources inventory !! k = None ->
        forall r, r ∈ hazard_resources -> key r <> k)
  /\ (forall r,
        r ∈ hazard_resources ->
        is_Some (Inventory.resources inventory !! key r)
        /\ r ∈ Inventory.lookup_by_type_id inventory (Inventory.type_id r)).
Proof.
  intros inventory.
  assert (Hlisted : forall r, r ∈ hazard_resources ->
            r ∈ Inventory.lookup_by_type_id inventory (Inventory.type_id r)).
  { intros r Hr. unfold inventory. rewrite lookup_by_type_id_filter.
    apply list_elem_of_filter. done. }
  split; [|split].
  - intros k r Hk. destruct (resources_lookup_Some key _ _ _ Hk) as [Hr Hkey].
    split; [exact Hr|]. split; [exact Hkey|]. apply Hlisted. exact Hr.
  - intros k Hk. apply resources_lookup_None. exact Hk.
  - intros r Hr. split; [|apply Hlisted; exact Hr].
    destruct (Inventory.resources inventory !! key r) as [r'|] eqn:Hl; [eauto|].
    exfalso. apply (proj1 (resources_lookup_None key _ _) Hl r Hr). reflexivity.
Qed.

Lemma Inventory_tables_consistent_witness :
  wri_baseline ∈ [wri_baseline; no_map_resource]
  /\ is_Some (Inventory.resources
                (Inventory.init HazardResource.key [wri_baseline; no_map_resource])
              !! HazardResource.key wri_baseline).
Proof.
  assert (Hin : wri_baseline ∈ [wri_baseline; no_map_resource])
    by apply list_elem_of_here.
  split; [exact Hin|].
  exact (proj1 (proj2 (proj2 (Inventory_tables_consistent HazardResource.key
                                [wri_baseline; no_map_resource]))
                  wri_baseline Hin)).
Defined.

(** X13: the table by type and id has exactly one key per distinct
    (type, id) pair of the input, and [Inventory.__init__] never stores an
    empty list in it: the list under a key is the non-empty list of the
    resources with this pair. *)
Theorem Inventory_by_type_id_table
    (key : HazardResource.t -> str) (hazard_resources : list HazardResource.t) :
  let table :=
    Inventory.resources_by_type_id (Inventory.init key hazard_resources) in
  (forall p, is_Some (table !! p) <-> p ∈ Inventory.type_id <$> hazard_resources)
  /\ size table = length (remove_dups (Inventory.type_id <$> hazard_resources))
  /\ (forall p l,
        table !! p = Some l ->
        l <> [] /\ l = filter (fun r => Inventory.type_id r = p) hazard_resources).
Proof.
  intros table.
  assert (Hsome : forall p, is_Some (table !! p)
                            <-> p ∈ Inventory.type_id <$> hazard_resources).
  { intros p. unfold table. rewrite resources_by_type_id_lookup.
    destruct (filter (fun r => Inventory.type_id r = p) hazard_resources)
      as [|r l] eqn:Hf.
    - split; [intros [x Hx]; discriminate Hx|].
      intros Hin. apply list_elem_of_fmap in Hin as (r & -> & Hr).
      exfalso. apply (proj1 (filter_none _ _) Hf r Hr). reflexivity.
    - split; [|eauto]. intros _.
      assert (Hin : r ∈ filter (fun r => Inventory.type_id r = p) hazard_resources)
        by (rewrite Hf; left).
      apply list_elem_of_filter in Hin as [<- Hr].
      apply list_elem_of_fmap_2. exact Hr. }
  split; [exact Hsome|]. split.
  - rewrite <- size_dom.
    replace (dom table)
      with (list_to_set (C := gset (str * str))
              (remove_dups (Inventory.type_id <$> hazard_resources))).
    + apply size_list_to_set. apply NoDup_remove_dups.
    + apply set_eq. intros p.
      rewrite elem_of_list_to_set, elem_of_remove_dups, elem_of_dom.
      symmetry. apply Hsome.
  - intros p l Hl. unfold table in Hl. rewrite resources_by_type_id_lookup in Hl.
    destruct (filter (fun r => Inventory.type_id r = p) hazard_resources)
      as [|r l'] eqn:Hf; [discriminate Hl|].
    injection Hl as <-. split; [discriminate|reflexivity].
Qed.

Lemma Inventory_by_type_id_table_witness :
  exists l,
    Inventory.resources_by_type_id
      (Inventory.init HazardResource.key [wri_baseline; wri_baseline_tampered])
    !! Inventory.type_id wri_baseline = Some l
    /\ l <> [].
Proof.
  destruct (Inventory_by_type_id_table HazardResource.key
              [wri_baseline; wri_baseline_tampered]) as (Hsome & _ & Hlist).
  destruct (proj2 (Hsome (Inventory.type_id wri_baseline))) as [l Hl].
  { apply (list_elem_of_fmap_2 Inventory.type_id
             [wri_baseline; wri_baseline_tampered] wri_baseline).
    apply list_elem_of_here. }
  exists l. split; [exact Hl|]. exact (proj1 (Hlist _ l Hl)).
Defined.

Lemma resolved_type_id (model resource : HazardResource.t) :
  resolved model resource ->
  Inventory.type_id resource = Inventory.type_id model
  /\ HazardResource.key resource = HazardResource.key model.
Proof. intros (ss & _ & ->). split; reflexivity. Qed.

(** X14: indexing what [to_resources] returns.  Resolution changes neither
    the type, nor the id, nor the path of a resource, so in the inventory
    built from the returned list the look-up of a (type, id) pair gives, in
    order, the resolved forms of the expanded models that have this pair. *)
Theorem Inventory_of_to_resources
    (key : HazardResource.t -> str)
    (expand : HazardResource.t -> list HazardResource.t)
    (models resources : list HazardResource.t) (p : str * str) :
  to_resources expand models = Ok resources ->
  Forall2 (fun model resource =>
             resolved model resource
             /\ Inventory.type_id resource = Inventory.type_id model
             /\ HazardResource.key resource = HazardResource.key model)
    (filter (fun m => Inventory.type_id m = p) (concat (expand <$> models)))
    (Inventory.lookup_by_type_id (Inventory.init key resources) p).
Proof.
  unfold to_resources. intros Hok. apply models_loop_Ok in Hok.
  rewrite lookup_by_type_id_filter.
  apply Forall2_filter.
  - intros m r (_ & Ht & _). rewrite Ht. reflexivity.
  - eapply Forall2_impl; [exact Hok|].
    intros m r Hr. split; [exact Hr|]. apply resolved_type_id. exact Hr.
Qed.

Lemma Inventory_of_to_resources_witness :
  to_resources (fun m => [m]) [no_map_resource] = Ok [no_map_resource_resolved]
  /\ Forall2 (fun model resource =>
                resolved model resource
                /\ Inventory.type_id resource = Inventory.type_id model
                /\ HazardResource.key resource = HazardResource.key model)
       (filter (fun m => Inventory.type_id m = Inventory.type_id no_map_resource)
          (concat ((fun m => [m]) <$> [no_map_resource])))
       (Inventory.lookup_by_type_id
          (Inventory.init HazardResource.key [no_map_resource_resolved])
          (Inventory.type_id no_map_resource)).
Proof.
  split; [exact no_map_resource_resolves|].
  exact (Inventory_of_to_resources HazardResource.key (fun m => [m])
           [no_map_resource] [no_map_resource_resolved]
           (Inventory.type_id no_map_resource) no_map_resource_resolves).
Defined.
